(** * BC-Combo: the effect parser, the unit hierarchy and the combo search

    A shallow embedding of [main.py].  Python [str] values are modelled as
    [string], each character standing for one code point below 256; a table
    cell that pandas reports as missing (NaN) is [None].  Dictionaries and
    sets are stdpp's [gmap] and [gset]. *)

From Stdlib Require Import ZArith Ascii String DecimalString List Sorting.Sorted Lia.
From stdpp Require Import base option list sorting gmap strings sets.

#[local] Set Warnings "-clear-no-such-hyp".

Local Open Scope string_scope.
Local Open Scope Z_scope.

(** ** Python string primitives used by the parser *)

Module PyStr.

(** The character [chr(34)], written without a string escape. *)
Definition dquote : ascii := ascii_of_nat 34.

(** [str.isspace] on one code point below 256. *)
Definition is_space (c : ascii) : bool :=
  let n := N_of_ascii c in
  ((9 <=? n) && (n <=? 13) || (28 <=? n) && (n <=? 32)
   || (n =? 133) || (n =? 160))%N.

(** [pat in s]: some suffix of [s] starts with [pat]. *)
Fixpoint contains (pat s : string) : bool :=
  String.prefix pat s ||
  match s with
  | EmptyString => false
  | String _ s' => contains pat s'
  end.

(** [s.replace(old, new)] for a non-empty [old]: scan left to right,
    every non-overlapping occurrence is replaced.  [skip] counts the
    characters of a matched occurrence that are still to be dropped. *)
Fixpoint replace_from (old new : string) (skip : nat) (s : string) : string :=
  match s with
  | EmptyString => EmptyString
  | String c s' =>
      match skip with
      | S k => replace_from old new k s'
      | O =>
          if String.prefix old s
          then new ++ replace_from old new (Nat.pred (String.length old)) s'
          else String c (replace_from old new O s')
      end
  end.

(** With an empty [old], Python puts [new] before every character and at
    the end. *)
Fixpoint intersperse (new s : string) : string :=
  match s with
  | EmptyString => new
  | String c s' => new ++ String c (intersperse new s')
  end.

Definition replace (old new s : string) : string :=
  match old with
  | EmptyString => intersperse new s
  | String _ _ => replace_from old new O s
  end.

(** [s.split(sep)[0]] for a non-empty [sep]: the part of [s] before the
    first occurrence of [sep], all of [s] when there is none. *)
Fixpoint split_head (sep s : string) : string :=
  if String.prefix sep s then EmptyString
  else match s with
       | EmptyString => EmptyString
       | String c s' => String c (split_head sep s')
       end.

Fixpoint lstrip (s : string) : string :=
  match s with
  | EmptyString => EmptyString
  | String c s' => if is_space c then lstrip s' else s
  end.

Fixpoint rstrip (s : string) : string :=
  match s with
  | EmptyString => EmptyString
  | String c s' =>
      match rstrip s' with
      | EmptyString => if is_space c then EmptyString else String c EmptyString
      | r => String c r
      end
  end.

(** [s.strip()] *)
Definition strip (s : string) : string := rstrip (lstrip s).

(** Python truthiness of a [str]. *)
Definition truthy (s : string) : bool :=
  match s with EmptyString => false | String _ _ => true end.

End PyStr.

(** ** The effect parser *)

(** The literal [strength_map]; a Python dict iterates in insertion order. *)
Definition strength_map : list (string * Z) :=
  [("(Sm)", 1); ("(M)", 2); ("(L)", 3); ("(XL)", 4)].

(** One [for strength_text, strength_value in strength_map.items()] loop
    that returns at the first marker found in [effect]; [on_hit] builds the
    effect type from the marker that matched. *)
Fixpoint scan_markers (on_hit : string -> string) (effect : string)
    (items : list (string * Z)) : option (string * Z) :=
  match items with
  | [] => None
  | (strength_text, strength_value) :: rest =>
      if PyStr.contains strength_text effect
      then Some (on_hit strength_text, strength_value)
      else scan_markers on_hit effect rest
  end.

Definition parse_effect_strength (effect : option string) : option string * Z :=
  match effect with
  | None => (None, 0)
  | Some effect =>
      match scan_markers
              (fun strength_text =>
                 PyStr.strip (PyStr.replace strength_text EmptyString effect))
              effect strength_map with
      | Some (effect_type, strength_value) => (Some effect_type, strength_value)
      | None =>
          let special :=
            if PyStr.contains "EffectUP" effect
            then scan_markers
                   (fun _ =>
                      PyStr.replace (String PyStr.dquote EmptyString) EmptyString
                        (PyStr.strip (PyStr.split_head "EffectUP" effect)))
                   effect strength_map
            else None in
          match special with
          | Some (effect_type, strength_value) => (Some effect_type, strength_value)
          | None => (Some effect, 1)
          end
      end
  end.

(** [parse_effect_strength] with the block under the comment
    [# Handle special cases] (the [if 'EffectUP' in effect] statement)
    deleted and nothing else changed. *)
Definition parse_without_special (effect : option string) : option string * Z :=
  match effect with
  | None => (None, 0)
  | Some effect =>
      match scan_markers
              (fun strength_text =>
                 PyStr.strip (PyStr.replace strength_text EmptyString effect))
              effect strength_map with
      | Some (effect_type, strength_value) => (Some effect_type, strength_value)
      | None => (Some effect, 1)
      end
  end.

(** *** What removing and trimming mean, said without the functions *)

(** Every character of [s] is white space. *)
Definition only_space (s : string) : Prop :=
  forall a c b, s = a ++ String c b -> PyStr.is_space c = true.

(** Neither the first nor the last character of [t] is white space. *)
Definition no_space_at_ends (t : string) : Prop :=
  (forall c r, t = String c r -> PyStr.is_space c = false) /\
  (forall r c, t = r ++ String c EmptyString -> PyStr.is_space c = false).

(** [t] is [s] without the white space around it. *)
Definition trimmed_from (s t : string) : Prop :=
  (exists pre post, s = pre ++ t ++ post /\ only_space pre /\ only_space post) /\
  no_space_at_ends t.

(** [r] is [s] with the occurrences of [m] taken out, found from the left
    and not overlapping. *)
Inductive removed (m : string) : string -> string -> Prop :=
| removed_end : removed m EmptyString EmptyString
| removed_hit s r : removed m s r -> removed m (m ++ s) r
| removed_keep c s r :
    String.prefix m (String c s) = false ->
    removed m s r -> removed m (String c s) (String c r).

(** The marker of [item] does not occur in [effect]. *)
Definition misses (effect : string) (item : string * Z) : Prop :=
  PyStr.contains item.1 effect = false.

(** The label of the comment in the source:
    ["Eva Angel Killer" EffectUP (XL)], with its two quote characters. *)
Definition eva_label : string :=
  String PyStr.dquote ("Eva Angel Killer" ++ String PyStr.dquote " EffectUP (XL)").

(** ** The tables and the loaded state *)

(** A row of [cats.tsv]: the four stage columns. *)
Record cats_row := {
  cat_First : option string;
  cat_Evolved : option string;
  cat_True : option string;
  cat_Ultra : option string
}.

(** A row of [combos.tsv].  A unit column that the table does not have
    reads as [None], like a missing cell. *)
Record combo_row := {
  combo_Name : option string;
  combo_Effect : option string;
  combo_Unit1 : option string;
  combo_Unit2 : option string;
  combo_Unit3 : option string;
  combo_Unit4 : option string;
  combo_Unit5 : option string
}.

(** The module's globals. *)
Record state := {
  cats_data : option (list cats_row);
  combos_data : option (list combo_row);
  cat_hierarchy : gmap string (gset string)
}.

Definition initial_state : state :=
  {| cats_data := None; combos_data := None; cat_hierarchy := ∅ |}.

(** ** Building the hierarchy ([load_data]) *)

(** The list [forms] of one row: the stages that are present, in column
    order. *)
Definition row_forms (row : cats_row) : list string :=
  option_list (cat_First row) ++ option_list (cat_Evolved row) ++
  option_list (cat_True row) ++ option_list (cat_Ultra row).

(** [for i, form in enumerate(forms)]: at each step the list still to be
    visited is [forms[i:]]. *)
Fixpoint add_forms (forms : list string) (h : gmap string (gset string))
    : gmap string (gset string) :=
  match forms with
  | [] => h
  | form :: later =>
      let h0 := match h !! form with
                | Some _ => h
                | None => <[form := ∅]> h
                end in
      add_forms later
        (<[form := default ∅ (h0 !! form) ∪ list_to_set (form :: later)]> h0)
  end.

Definition build_hierarchy (rows : list cats_row) (h : gmap string (gset string))
    : gmap string (gset string) :=
  foldl (fun h row => add_forms (row_forms row) h) h rows.

(** The satisfying set of [u]: the entry under [u], empty when [u] is not
    a key of the relation. *)
Definition satisfying (h : gmap string (gset string)) (u : string) : gset string :=
  default ∅ (h !! u).

(** What one chain contributes to the entry of [u]: the tail of the chain
    from every position where [u] stands. *)
Fixpoint tails_of (u : string) (forms : list string) : gset string :=
  match forms with
  | [] => ∅
  | form :: later =>
      (if decide (form = u) then list_to_set (form :: later) else ∅)
      ∪ tails_of u later
  end.

Fixpoint count_form (u : string) (forms : list string) : nat :=
  match forms with
  | [] => O
  | form :: later => ((if decide (form = u) then 1 else 0) + count_form u later)%nat
  end.

(** How many cells of the unit table hold the name [u]. *)
Definition occurrences (u : string) (rows : list cats_row) : nat :=
  count_form u (concat (map row_forms rows)).

(** Two rows whose chains share the name [C]. *)
Definition chain_row_ABC : cats_row :=
  {| cat_First := Some "A"; cat_Evolved := Some "B";
     cat_True := Some "C"; cat_Ultra := None |}.

Definition chain_row_CX : cats_row :=
  {| cat_First := Some "C"; cat_Evolved := Some "X";
     cat_True := None; cat_Ultra := None |}.

Definition load_data (cats : list cats_row) (combos : list combo_row)
    (st : state) : state :=
  {| cats_data := Some cats;
     combos_data := Some combos;
     cat_hierarchy := build_hierarchy cats (cat_hierarchy st) |}.

(** ** Combo units and availability *)

Definition combo_cell (combo : combo_row) (i : nat) : option string :=
  match i with
  | 1%nat => combo_Unit1 combo
  | 2%nat => combo_Unit2 combo
  | 3%nat => combo_Unit3 combo
  | 4%nat => combo_Unit4 combo
  | 5%nat => combo_Unit5 combo
  | _ => None
  end.

Definition get_combo_units (combo : combo_row) : list string :=
  omap (combo_cell combo) (seq 1 5).

(** The inner loop of [can_satisfy_combo]: the value of [found] after it. *)
Fixpoint find_available (h : gmap string (gset string)) (required_cat : string)
    (available_cats : list string) : bool :=
  match available_cats with
  | [] => false
  | available_cat :: rest =>
      if decide (available_cat = required_cat) then true
      else match h !! required_cat with
           | Some sat =>
               if decide (available_cat ∈ sat) then true
               else find_available h required_cat rest
           | None => find_available h required_cat rest
           end
  end.

Fixpoint can_satisfy_combo (h : gmap string (gset string))
    (combo_units available_cats : list string) : bool :=
  match combo_units with
  | [] => true
  | required_cat :: rest =>
      if find_available h required_cat available_cats
      then can_satisfy_combo h rest available_cats
      else false
  end.

(** ** Sorting and combinations *)

(** Python's sorts are stable; insertion from the right is a stable sort,
    an element going before the first one it is not greater than. *)
Fixpoint insert_sorted {A} (le : A -> A -> bool) (x : A) (l : list A) : list A :=
  match l with
  | [] => [x]
  | y :: l' => if le x y then x :: l else y :: insert_sorted le x l'
  end.

Definition stable_sort {A} (le : A -> A -> bool) (l : list A) : list A :=
  foldr (insert_sorted le) [] l.

(** [sorted] on a list of [str]: code-point lexicographic order. *)
Definition sorted_strings (l : list string) : list string :=
  stable_sort String.leb l.

(** [itertools.combinations(l, k)]: the [k]-element choices by position,
    in lexicographic order of the positions. *)
Fixpoint combinations {A} (l : list A) (k : nat) : list (list A) :=
  match k with
  | O => [[]]
  | S k' =>
      match l with
      | [] => []
      | x :: l' => map (cons x) (combinations l' k') ++ combinations l' k
      end
  end.

(** ** The search ([find_combo_combinations]) *)

Record matching_combo := {
  mc_name : option string;
  mc_effect_type : option string;
  mc_strength : Z;
  mc_units : list string;
  mc_unit_count : Z
}.

Record result := {
  combos : list (option string);
  total_strength : Z;
  cats : list string;
  cat_count : Z
}.

(** First loop: the combos whose parsed effect type is the target. *)
Fixpoint collect_matching (target_effect_type : string) (rows : list combo_row)
    : list matching_combo :=
  match rows with
  | [] => []
  | combo :: rest =>
      let '(effect_type, strength) := parse_effect_strength (combo_Effect combo) in
      if decide (effect_type = Some target_effect_type) then
        let units := get_combo_units combo in
        {| mc_name := combo_Name combo;
           mc_effect_type := effect_type;
           mc_strength := strength;
           mc_units := units;
           mc_unit_count := Z.of_nat (length units) |}
        :: collect_matching target_effect_type rest
      else collect_matching target_effect_type rest
  end.

(** [matching_combos.sort(key=strength, reverse=True)] *)
Definition sort_by_strength (l : list matching_combo) : list matching_combo :=
  stable_sort (fun x y => mc_strength y <=? mc_strength x) l.

Definition sum_strength (combo_combination : list matching_combo) : Z :=
  foldr (fun combo acc => mc_strength combo + acc) 0 combo_combination.

(** [all_cats] after the update loop. *)
Definition union_units (combo_combination : list matching_combo) : gset string :=
  foldl (fun all_cats combo => all_cats ∪ list_to_set (mc_units combo)) ∅
        combo_combination.

Definition make_result (combo_combination : list matching_combo) : result :=
  let all_cats := union_units combo_combination in
  {| combos := map mc_name combo_combination;
     total_strength := sum_strength combo_combination;
     cats := elements all_cats;
     cat_count := Z.of_nat (size all_cats) |}.

(** The body of the two nested loops for one combination: the result it
    appends, if any. *)
Definition try_combination (target_strength max_cats : Z)
    (combo_combination : list matching_combo) : option result :=
  if target_strength <=? sum_strength combo_combination then
    if Z.of_nat (size (union_units combo_combination)) <=? max_cats
    then Some (make_result combo_combination)
    else None
  else None.

Definition enumerate_results (target_strength max_cats : Z)
    (matching_combos : list matching_combo) : list result :=
  flat_map
    (fun combo_count =>
       omap (try_combination target_strength max_cats)
            (combinations matching_combos combo_count))
    (seq 1 (length matching_combos)).

(** The duplicate-removal loop; [seen_cats] holds the sorted tuples. *)
Fixpoint unique_from (seen_cats : gset (list string)) (results : list result)
    : list result :=
  match results with
  | [] => []
  | r :: rest =>
      let cats_tuple := sorted_strings (cats r) in
      if decide (cats_tuple ∈ seen_cats) then unique_from seen_cats rest
      else r :: unique_from ({[cats_tuple]} ∪ seen_cats) rest
  end.

(** The final sort key [(cat_count, -total_strength)], compared as tuples. *)
Definition rank_le (x y : result) : bool :=
  (cat_count x <? cat_count y) ||
  ((cat_count x =? cat_count y) && (- total_strength x <=? - total_strength y)).

(** The search over a loaded combo table. *)
Definition search (rows : list combo_row) (target_effect_type : string)
    (target_strength max_cats : Z) : list result :=
  let matching_combos := sort_by_strength (collect_matching target_effect_type rows) in
  let results := enumerate_results target_strength max_cats matching_combos in
  let unique_results := unique_from ∅ results in
  stable_sort rank_le unique_results.

(** The list [results] when the two nested loops are done. *)
Definition candidates (rows : list combo_row) (target_effect_type : string)
    (target_strength max_cats : Z) : list result :=
  enumerate_results target_strength max_cats
    (sort_by_strength (collect_matching target_effect_type rows)).

(** The key of the duplicate-removal loop: [tuple(sorted(result['cats']))]. *)
Definition result_key (r : result) : list string := sorted_strings (cats r).

(** The order the final sort establishes between an earlier and a later
    result. *)
Definition rank_rel (x y : result) : Prop :=
  cat_count x <= cat_count y /\
  (cat_count x = cat_count y -> total_strength y <= total_strength x).

(** *** The words of the search properties, on catalog rows *)

Definition effect_type_of (combo : combo_row) : option string :=
  (parse_effect_strength (combo_Effect combo)).1.

Definition tier_of (combo : combo_row) : Z :=
  (parse_effect_strength (combo_Effect combo)).2.

(** The strength-tier sum of a set of combos. *)
Definition tier_sum (subset : list combo_row) : Z :=
  foldr (fun combo acc => tier_of combo + acc) 0 subset.

(** The union of the required units of a set of combos. *)
Definition unit_union (subset : list combo_row) : gset string :=
  ⋃ (map (fun combo => list_to_set (get_combo_units combo)) subset).

(** A subset of the catalog whose combos all have the target effect type:
    a selection of rows, each row taken at most as often as it stands in
    the table. *)
Definition matching_subset (rows : list combo_row) (target_effect_type : string)
    (subset : list combo_row) : Prop :=
  subset ⊆+ rows /\
  Forall (fun combo => effect_type_of combo = Some target_effect_type) subset.

(** The fields of the candidate [r] are those of the subset: its combo
    names, its tier sum, its unit union and the size of that union. *)
Definition result_of_subset (r : result) (subset : list combo_row) : Prop :=
  combos r = map combo_Name subset /\
  total_strength r = tier_sum subset /\
  list_to_set (cats r) = unit_union subset /\
  cat_count r = Z.of_nat (size (unit_union subset)).

(** A candidate that stands for a non-empty matching subset and meets both
    bounds of the query. *)
Definition sound_result (rows : list combo_row) (target_effect_type : string)
    (target_strength max_cats : Z) (r : result) : Prop :=
  (exists subset, subset <> [] /\
                  matching_subset rows target_effect_type subset /\
                  result_of_subset r subset) /\
  target_strength <= total_strength r /\
  cat_count r <= max_cats.

(** The sorted tuple under which a subset is looked for among the
    candidates. *)
Definition subset_key (subset : list combo_row) : list string :=
  sorted_strings (elements (unit_union subset)).

(** How many candidates of [out] stand under the key of [subset]. *)
Definition representatives (out : list result) (subset : list combo_row) : nat :=
  length (filter (fun r => result_key r = subset_key subset) out).

(** The record the first loop builds for a matching row. *)
Definition matching_record (combo : combo_row) : matching_combo :=
  {| mc_name := combo_Name combo;
     mc_effect_type := effect_type_of combo;
     mc_strength := tier_of combo;
     mc_units := get_combo_units combo;
     mc_unit_count := Z.of_nat (length (get_combo_units combo)) |}.

(** The catalog of the worked example of the specification. *)
Definition example_combo (name effect : string) (unit1 unit2 : option string)
    : combo_row :=
  {| combo_Name := Some name; combo_Effect := Some effect;
     combo_Unit1 := unit1; combo_Unit2 := unit2;
     combo_Unit3 := None; combo_Unit4 := None; combo_Unit5 := None |}.

Definition example_catalog : list combo_row :=
  [example_combo "A" "Attack (M)" (Some "u1") (Some "u2");
   example_combo "B" "Attack (L)" (Some "u2") (Some "u3");
   example_combo "C" "Attack (Sm)" (Some "u4") None].

(** ** Exceptions *)

Inductive exn :=
| AttributeError (msg : string)
| ValueError (msg : string).

(** [str(e)] *)
Definition exn_str (e : exn) : string :=
  match e with AttributeError msg | ValueError msg => msg end.

Inductive outcome (A : Type) :=
| Returned (a : A)
| Raised (e : exn).
Arguments Returned {A} a.
Arguments Raised {A} e.

#[global] Instance outcome_bind : MBind outcome := fun A B k m =>
  match m with
  | Returned a => k a
  | Raised e => Raised e
  end.

(** [combos_data.iterrows()]: before [load_data] the global is [None]. *)
Definition iterrows (st : state) : outcome (list combo_row) :=
  match combos_data st with
  | Some rows => Returned rows
  | None => Raised (AttributeError "'NoneType' object has no attribute 'iterrows'")
  end.

Definition find_combo_combinations (st : state) (target_effect_type : string)
    (target_strength max_cats : Z) : outcome (list result) :=
  rows ← iterrows st;
  Returned (search rows target_effect_type target_strength max_cats).

(** ** The query surface *)

(** [int(s)] for a [str], base 10, as CPython reads it: the string is
    first brought to ASCII, then white space, an optional sign and a run of
    digits (single underscores allowed between digits) are read; more than
    4300 digits are refused. *)
Module PyInt.

Definition is_digit (c : ascii) : bool :=
  let n := N_of_ascii c in ((48 <=? n) && (n <=? 57))%N.

Definition digit_value (c : ascii) : Z := Z.of_N (N_of_ascii c) - 48.

(** The white space of the C parser: tab to carriage return, and the
    blank. *)
Definition is_c_space (c : ascii) : bool :=
  let n := N_of_ascii c in ((9 <=? n) && (n <=? 13) || (n =? 32))%N.

Fixpoint is_ascii (s : string) : bool :=
  match s with
  | EmptyString => true
  | String c s' => (N_of_ascii c <? 128)%N && is_ascii s'
  end.

(** The conversion of a string that is not all ASCII: a code point below
    127 is kept, a white space becomes a blank, and at any other code point
    (none below 256 is a decimal digit there) a question mark is written
    and the string ends. *)
Fixpoint transform (s : string) : string :=
  match s with
  | EmptyString => EmptyString
  | String c s' =>
      if (N_of_ascii c <? 127)%N then String c (transform s')
      else if PyStr.is_space c then String " " (transform s')
      else String "?" EmptyString
  end.

Definition to_ascii (s : string) : string :=
  if is_ascii s then s else transform s.

Fixpoint skip_space (s : string) : string :=
  match s with
  | EmptyString => EmptyString
  | String c s' => if is_c_space c then skip_space s' else s
  end.

(** The run of digits and underscores at the head of [s]: [None] at a
    doubled underscore or when an underscore closes the run, otherwise the
    value read, the number of digits and what follows the run. *)
Fixpoint scan (value : Z) (digits : nat) (prev_underscore : bool) (s : string)
    : option (Z * nat * string) :=
  match s with
  | EmptyString => if prev_underscore then None else Some (value, digits, s)
  | String c s' =>
      if is_digit c then scan (10 * value + digit_value c) (S digits) false s'
      else if Ascii.eqb c "_" then
        if prev_underscore then None else scan value digits true s'
      else if prev_underscore then None else Some (value, digits, s)
  end.

Definition hex_digit (n : N) : ascii :=
  match String.get (N.to_nat n) "0123456789abcdef" with
  | Some c => c
  | None => "0"%char
  end.

(** The escape of a code point below 256: a backslash, [x] and two hex
    digits. *)
Definition escape_hex (c : ascii) : string :=
  let n := N_of_ascii c in
  String "\" (String "x" (String (hex_digit (n / 16)) (String (hex_digit (n mod 16))
    EmptyString))).

(** [str.isprintable] on one code point below 256. *)
Definition is_printable (c : ascii) : bool :=
  let n := N_of_ascii c in
  ((32 <=? n) && (n <? 127) || (161 <=? n) && negb (n =? 173))%N.

Fixpoint repr_body (quote : ascii) (s : string) : string :=
  match s with
  | EmptyString => EmptyString
  | String c s' =>
      let n := N_of_ascii c in
      (if Ascii.eqb c quote || Ascii.eqb c "\" then String "\" (String c EmptyString)
       else if (n =? 9)%N then String "\" "t"
       else if (n =? 10)%N then String "\" "n"
       else if (n =? 13)%N then String "\" "r"
       else if is_printable c then String c EmptyString
       else escape_hex c)
      ++ repr_body quote s'
  end.

Fixpoint has_char (c : ascii) (s : string) : bool :=
  match s with
  | EmptyString => false
  | String d s' => Ascii.eqb c d || has_char c s'
  end.

(** [repr(s)]: double quotes only when [s] holds a single quote and no
    double quote. *)
Definition repr (s : string) : string :=
  let quote :=
    if has_char "'" s && negb (has_char PyStr.dquote s) then PyStr.dquote
    else "'"%char in
  String quote (repr_body quote s ++ String quote EmptyString).

(** The message is formatted with [%.200R]: the [repr] cut at 200
    characters. *)
Definition invalid_literal (s : string) : exn :=
  ValueError ("invalid literal for int() with base 10: "
              ++ String.substring 0 200 (repr s)).

Definition over_limit (digits : nat) : exn :=
  ValueError ("Exceeds the limit (4300 digits) for integer string conversion: value has "
              ++ NilZero.string_of_uint (Nat.to_uint digits)
              ++ " digits; use sys.set_int_max_str_digits() to increase the limit").

Definition int (s : string) : outcome Z :=
  let str := skip_space (to_ascii s) in
  let '(negative, str) :=
    match str with
    | String "+" rest => (false, rest)
    | String "-" rest => (true, rest)
    | _ => (false, str)
    end in
  match str with
  | String "_" _ => Raised (invalid_literal s)
  | _ =>
      match scan 0 0 false str with
      | None => Raised (invalid_literal s)
      | Some (value, digits, rest) =>
          if (4300 <? digits)%nat then Raised (over_limit digits)
          else if (digits =? 0)%nat then Raised (invalid_literal s)
          else match skip_space rest with
               | EmptyString => Returned (if negative then - value else value)
               | String _ _ => Raised (invalid_literal s)
               end
      end
  end.

End PyInt.

Inductive body :=
| ErrorBody (error : string)
| ResultsBody (results : list result) (total_found : Z)
| EffectTypesBody (effect_types : list string).

(** What a view returns: the JSON body and the status (200 when the view
    gives none). *)
Record response := { status : Z; payload : body }.

(** [effect_types] after the loop of [get_effect_types]. *)
Fixpoint collect_effect_types (effect_types : gset string) (rows : list combo_row)
    : gset string :=
  match rows with
  | [] => effect_types
  | combo :: rest =>
      let '(effect_type, _) := parse_effect_strength (combo_Effect combo) in
      match effect_type with
      | Some t =>
          if PyStr.truthy t then collect_effect_types (effect_types ∪ {[t]}) rest
          else collect_effect_types effect_types rest
      | None => collect_effect_types effect_types rest
      end
  end.

Definition get_effect_types (st : state) : outcome response :=
  rows ← iterrows st;
  let effect_types := collect_effect_types ∅ rows in
  Returned {| status := 200;
              payload := EffectTypesBody (sorted_strings (elements effect_types)) |}.

(** [int(request.args.get(key, default))] *)
Definition int_arg (args : gmap string string) (key : string) (default : Z)
    : outcome Z :=
  match args !! key with
  | Some s => PyInt.int s
  | None => Returned default
  end.

Definition find_combinations (st : state) (args : gmap string string)
    : outcome response :=
  let effect_type := args !! "effect_type" in
  strength ← int_arg args "strength" 1;
  max_cats ← int_arg args "max_cats" 5;
  match effect_type with
  | Some (String c t) =>
      match find_combo_combinations st (String c t) strength max_cats with
      | Returned results =>
          Returned {| status := 200;
                      payload := ResultsBody results (Z.of_nat (length results)) |}
      | Raised e =>
          Returned {| status := 500; payload := ErrorBody (exn_str e) |}
      end
  | _ => Returned {| status := 400; payload := ErrorBody "Effect type is required" |}
  end.

(** * Verification *)

(** ** The string primitives meet their Python meaning *)

Section string_facts.

Lemma prefix_true_iff (p s : string) :
  String.prefix p s = true <-> exists b, s = p ++ b.
Proof.
  revert s. induction p as [|a p IH]; intros s; simpl.
  - destruct s; split; eauto.
  - destruct s as [|c s]; simpl.
    + split; [discriminate | intros [b Hb]; discriminate].
    + destruct (ascii_dec a c) as [->|Hne].
      * rewrite IH. split; intros [b Hb]; exists b.
        -- by rewrite Hb.
        -- by injection Hb.
      * split; [discriminate | intros [b Hb]; injection Hb; congruence].
Qed.

(** [contains] is substring occurrence. *)
Lemma contains_true_iff (pat s : string) :
  PyStr.contains pat s = true <-> exists a b, s = a ++ pat ++ b.
Proof.
  induction s as [|c s IH]; cbn [PyStr.contains].
  - rewrite orb_false_r, prefix_true_iff. split.
    + intros [b Hb]. by exists EmptyString, b.
    + intros [[|x a] [b Hb]]; [by exists b | discriminate].
  - rewrite orb_true_iff, IH, prefix_true_iff. split.
    + intros [[b Hb]|(a & b & Hab)].
      * by exists EmptyString, b.
      * exists (String c a), b. by rewrite Hab.
    + intros [[|x a] [b Hb]].
      * left. by exists b.
      * right. exists a, b. by injection Hb.
Qed.

Lemma split_head_no_sep (sep s : string) :
  PyStr.contains sep s = false -> PyStr.split_head sep s = s.
Proof.
  induction s as [|c s IH]; cbn [PyStr.contains PyStr.split_head].
  - by destruct (String.prefix sep EmptyString).
  - intros [Hp Hc]%orb_false_iff. rewrite Hp. by rewrite IH.
Qed.

Lemma replace_absent (old new s : string) :
  old <> EmptyString -> PyStr.contains old s = false ->
  PyStr.replace old new s = s.
Proof.
  intros Hold. destruct old as [|o old]; [done|]. unfold PyStr.replace.
  generalize (String o old). clear. intros old.
  induction s as [|c s IH]; [done|].
  cbn [PyStr.contains PyStr.replace_from].
  intros [Hp Hc]%orb_false_iff. rewrite Hp. by rewrite IH.
Qed.

End string_facts.

(** ** The effect parser *)

Section parser.

Implicit Types (effect : string) (items : list (string * Z)).

Lemma scan_markers_first on_hit effect items pre m t post :
  items = (pre ++ (m, t) :: post)%list ->
  Forall (misses effect) pre ->
  PyStr.contains m effect = true ->
  scan_markers on_hit effect items = Some (on_hit m, t).
Proof.
  intros -> Hpre Hm. induction Hpre as [|[m' t'] pre Hmiss _ IH]; simpl.
  - by rewrite Hm.
  - unfold misses in Hmiss. simpl in Hmiss. by rewrite Hmiss.
Qed.

Lemma scan_markers_none on_hit effect items :
  Forall (misses effect) items <-> scan_markers on_hit effect items = None.
Proof.
  induction items as [|[m t] items IH]; simpl.
  - split; [done | constructor].
  - rewrite Forall_cons. unfold misses at 1. simpl.
    destruct (PyStr.contains m effect); [|tauto].
    split; [by intros [? _] | done].
Qed.

(** Whether a scan hits does not depend on how the effect type is built:
    the second scan of the [EffectUP] branch repeats the first. *)
Lemma special_case_unreachable on_hit on_hit' effect items :
  scan_markers on_hit effect items = None ->
  scan_markers on_hit' effect items = None.
Proof. rewrite <-!scan_markers_none. done. Qed.

Lemma parse_present effect :
  parse_effect_strength (Some effect) =
  match scan_markers
          (fun m => PyStr.strip (PyStr.replace m EmptyString effect))
          effect strength_map with
  | Some (effect_type, tier) => (Some effect_type, tier)
  | None => (Some effect, 1)
  end.
Proof.
  unfold parse_effect_strength.
  destruct (scan_markers _ effect strength_map) as [[ty tier]|] eqn:Hscan; [done|].
  destruct (PyStr.contains "EffectUP" effect); [|done].
  by rewrite (special_case_unreachable _ _ _ _ Hscan).
Qed.

Lemma parse_type_present effect : (parse_effect_strength (Some effect)).1 <> None.
Proof.
  rewrite parse_present.
  by destruct (scan_markers _ effect strength_map) as [[ty tier]|].
Qed.

Lemma parse_type_absent label :
  (parse_effect_strength label).1 = None <-> label = None.
Proof.
  destruct label as [effect|]; [|done].
  split; [|done]. intros H. by apply parse_type_present in H.
Qed.

(** *** What [strip] and [replace] compute *)

Lemma only_space_nil : only_space EmptyString.
Proof. intros [|x a] c b H; discriminate. Qed.

Lemma only_space_cons c s :
  PyStr.is_space c = true -> only_space s -> only_space (String c s).
Proof.
  intros Hc Hs [|x a] c' b H; injection H as <- H; [done|]. by apply (Hs a c' b).
Qed.

Lemma only_space_inv c s :
  only_space (String c s) -> PyStr.is_space c = true /\ only_space s.
Proof.
  intros H. split.
  - by apply (H EmptyString c s).
  - intros a c' b ->. by apply (H (String c a) c' b).
Qed.

Lemma lstrip_split s : exists pre, s = pre ++ PyStr.lstrip s /\ only_space pre.
Proof.
  induction s as [|c s (pre & Hs & Hpre)]; simpl.
  - exists EmptyString. split; [done | apply only_space_nil].
  - destruct (PyStr.is_space c) eqn:Hc.
    + exists (String c pre). split; [|by apply only_space_cons].
      change (String c s = String c (pre ++ PyStr.lstrip s)). by rewrite <-Hs.
    + exists EmptyString. split; [done | apply only_space_nil].
Qed.

Lemma lstrip_head s c r : PyStr.lstrip s = String c r -> PyStr.is_space c = false.
Proof.
  induction s as [|x s IH]; simpl; [done|].
  destruct (PyStr.is_space x) eqn:Hx; [done|]. by intros [= <- _].
Qed.

Lemma rstrip_split u : exists post, u = PyStr.rstrip u ++ post /\ only_space post.
Proof.
  induction u as [|c u (post & Hu & Hpost)]; simpl.
  - exists EmptyString. split; [done | apply only_space_nil].
  - destruct (PyStr.rstrip u) as [|d r] eqn:Hr.
    + destruct (PyStr.is_space c) eqn:Hc.
      * exists (String c post). split; [|by apply only_space_cons].
        change (String c u = String c post). by rewrite Hu.
      * exists post. split; [|done].
        change (String c u = String c post). by rewrite Hu.
    + exists post. split; [|done].
      change (String c u = String c (String d r ++ post)). by rewrite <-Hu.
Qed.

Lemma rstrip_head u c r : PyStr.rstrip u = String c r -> exists r', u = String c r'.
Proof.
  destruct u as [|x u]; simpl; [done|].
  destruct (PyStr.rstrip u); [destruct (PyStr.is_space x)|]; intros [= <- _]; eauto.
Qed.

Lemma rstrip_last u r c :
  PyStr.rstrip u = r ++ String c EmptyString -> PyStr.is_space c = false.
Proof.
  revert r. induction u as [|x u IH]; intros r; simpl.
  - by destruct r.
  - destruct (PyStr.rstrip u) as [|d r'] eqn:Hr.
    + destruct (PyStr.is_space x) eqn:Hx; [by destruct r|].
      destruct r as [|y [|z r]]; intros [= <-]; done.
    + destruct r as [|y r]; [by intros [= _ ?]|].
      intros [= _ H]. by apply (IH r).
Qed.

Lemma strip_trimmed_from s : trimmed_from s (PyStr.strip s).
Proof.
  unfold PyStr.strip. split.
  - destruct (lstrip_split s) as (pre & Hs & Hpre).
    destruct (rstrip_split (PyStr.lstrip s)) as (post & Hu & Hpost).
    exists pre, post. split; [|done]. by rewrite <-Hu.
  - split.
    + intros c r (r' & Hl)%rstrip_head. by apply lstrip_head in Hl.
    + intros r c. apply rstrip_last.
Qed.

Lemma lstrip_only_space s : only_space s -> PyStr.lstrip s = EmptyString.
Proof.
  induction s as [|c s IH]; simpl; [done|].
  intros [-> Hs]%only_space_inv. by apply IH.
Qed.

Lemma rstrip_only_space s : only_space s -> PyStr.rstrip s = EmptyString.
Proof.
  induction s as [|c s IH]; simpl; [done|].
  intros [-> Hs]%only_space_inv. by rewrite IH.
Qed.

Lemma lstrip_app_space pre u :
  only_space pre -> PyStr.lstrip (pre ++ u) = PyStr.lstrip u.
Proof.
  induction pre as [|c pre IH]; [done|].
  intros [Hc Hpre]%only_space_inv.
  change (PyStr.lstrip (String c (pre ++ u)) = PyStr.lstrip u).
  simpl. rewrite Hc. by apply IH.
Qed.

Lemma rstrip_app_space t post :
  (forall r c, t = r ++ String c EmptyString -> PyStr.is_space c = false) ->
  only_space post -> PyStr.rstrip (t ++ post) = t.
Proof.
  intros Hlast Hpost. induction t as [|c t IH].
  - by apply rstrip_only_space.
  - change (PyStr.rstrip (String c (t ++ post)) = String c t). simpl.
    rewrite IH.
    + destruct t as [|d t]; [|done]. by rewrite (Hlast EmptyString c).
    + intros r c' ->. by apply (Hlast (String c r) c').
Qed.

Lemma trimmed_from_unique s t : trimmed_from s t -> t = PyStr.strip s.
Proof.
  intros [(pre & post & -> & Hpre & Hpost) [Hfirst Hlast]].
  unfold PyStr.strip. rewrite lstrip_app_space by done.
  destruct t as [|c t].
  - change (EmptyString ++ post) with post.
    by rewrite lstrip_only_space.
  - change (String c t ++ post) with (String c (t ++ post)). cbn [PyStr.lstrip].
    rewrite (Hfirst c t) by done.
    change (String c (t ++ post)) with (String c t ++ post).
    by rewrite rstrip_app_space.
Qed.

Lemma replace_from_skip old new a s :
  PyStr.replace_from old new (String.length a) (a ++ s)
  = PyStr.replace_from old new O s.
Proof.
  induction a as [|c a IH]; [done|].
  change (PyStr.replace_from old new (S (String.length a)) (String c (a ++ s))
          = PyStr.replace_from old new O s).
  exact IH.
Qed.

Lemma string_prefix_app m s : String.prefix m (m ++ s) = true.
Proof. apply prefix_true_iff. by exists s. Qed.

Lemma replace_hit m s :
  m <> EmptyString ->
  PyStr.replace m EmptyString (m ++ s) = PyStr.replace m EmptyString s.
Proof.
  destruct m as [|o m]; [done|]. intros _. unfold PyStr.replace.
  change (String o m ++ s) with (String o (m ++ s)).
  cbn [PyStr.replace_from].
  change (String o (m ++ s)) with (String o m ++ s). rewrite string_prefix_app.
  cbn [String.length Nat.pred]. apply replace_from_skip.
Qed.

Lemma replace_keep m c s :
  m <> EmptyString -> String.prefix m (String c s) = false ->
  PyStr.replace m EmptyString (String c s)
  = String c (PyStr.replace m EmptyString s).
Proof.
  destruct m as [|o m]; [done|]. intros _ Hp. unfold PyStr.replace.
  cbn [PyStr.replace_from]. by rewrite Hp.
Qed.

Lemma length_app_string (a b : string) :
  String.length (a ++ b) = (String.length a + String.length b)%nat.
Proof. induction a as [|c a IH]; [done|]. simpl. by rewrite <-IH. Qed.

Lemma replace_removed m s :
  m <> EmptyString -> removed m s (PyStr.replace m EmptyString s).
Proof.
  intros Hm.
  assert (forall n s, (String.length s <= n)%nat ->
                      removed m s (PyStr.replace m EmptyString s)) as Hall.
  { clear s. induction n as [|n IH]; intros s Hlen.
    - destruct s; [|simpl in Hlen; lia].
      destruct m; [done|]. constructor.
    - destruct s as [|c s].
      { destruct m; [done|]. constructor. }
      destruct (String.prefix m (String c s)) eqn:Hp.
      + apply prefix_true_iff in Hp as (s' & Hs'). rewrite Hs', replace_hit by done.
        constructor. apply IH.
        apply (f_equal String.length) in Hs'. rewrite length_app_string in Hs'.
        destruct m; [done|]. simpl in *. lia.
      + rewrite replace_keep by done. constructor; [done|].
        apply IH. simpl in Hlen. lia. }
  by apply (Hall (String.length s)).
Qed.

Lemma removed_unique m s r :
  m <> EmptyString -> removed m s r -> r = PyStr.replace m EmptyString s.
Proof.
  intros Hm. induction 1 as [|s r _ IH|c s r Hp _ IH].
  - by destruct m.
  - by rewrite replace_hit.
  - by rewrite replace_keep, <-IH.
Qed.

Lemma marker_not_empty m t : (m, t) ∈ strength_map -> m <> EmptyString.
Proof.
  unfold strength_map. intros Hin.
  repeat (apply elem_of_cons in Hin as [[= -> _]|Hin]; [discriminate|]).
  by apply elem_of_nil in Hin.
Qed.

(** C7.  The four markers are scanned in the declared order
    [(Sm)], [(M)], [(L)], [(XL)] with tiers 1 to 4; the first marker that
    occurs in the label decides: the effect type is the label with that
    marker removed and then stripped, the tier is the marker's; a label
    with none of the markers is returned unchanged with tier 1.  Occurring,
    removing and stripping are what the words say: a marker occurs when the
    label is some text, the marker, some text; the occurrences are taken
    out from the left; the white space around the rest, and nothing else,
    is dropped. *)
Theorem parse_scans_in_declared_order :
  strength_map = [("(Sm)", 1); ("(M)", 2); ("(L)", 3); ("(XL)", 4)] /\
  (forall effect pre m t post,
      strength_map = (pre ++ (m, t) :: post)%list ->
      Forall (misses effect) pre ->
      PyStr.contains m effect = true ->
      parse_effect_strength (Some effect) =
      (Some (PyStr.strip (PyStr.replace m EmptyString effect)), t) /\
      removed m effect (PyStr.replace m EmptyString effect) /\
      trimmed_from (PyStr.replace m EmptyString effect)
                   (PyStr.strip (PyStr.replace m EmptyString effect))) /\
  (forall effect,
      Forall (misses effect) strength_map ->
      parse_effect_strength (Some effect) = (Some effect, 1)) /\
  (forall m effect,
      PyStr.contains m effect = true <-> exists a b, effect = a ++ m ++ b) /\
  (forall m s r,
      m <> EmptyString -> removed m s r -> r = PyStr.replace m EmptyString s) /\
  (forall s t, trimmed_from s t -> t = PyStr.strip s).
Proof.
  split; [done|]. split; [|split; [|split; [|split]]].
  - intros effect pre m t post Hsplit Hpre Hm. split; [|split].
    + rewrite parse_present.
      by rewrite (scan_markers_first _ _ _ _ _ _ _ Hsplit Hpre Hm).
    + apply replace_removed. apply (marker_not_empty m t).
      rewrite Hsplit. apply elem_of_app. right. left.
    + apply strip_trimmed_from.
  - intros effect Hnone. rewrite parse_present.
    by apply (scan_markers_none
                (fun m => PyStr.strip (PyStr.replace m EmptyString effect)))
      in Hnone as ->.
  - intros m effect. apply contains_true_iff.
  - intros m s r. apply removed_unique.
  - apply trimmed_from_unique.
Qed.

Lemma parse_scans_in_declared_order_witness :
  parse_effect_strength (Some "Attack (L) (Sm)(M)") = (Some "Attack (L) (M)", 1) /\
  parse_effect_strength (Some " Attack (XL)(L)") = (Some "Attack (XL)", 3) /\
  parse_effect_strength (Some " Speed ") = (Some " Speed ", 1) /\
  parse_effect_strength (Some "Attack (L)  ") = (Some "Attack", 3) /\
  parse_effect_strength (Some "(M)(M) Speed up (M) ") = (Some "Speed up", 2).
Proof.
  destruct parse_scans_in_declared_order as (_ & Hhit & Hmiss & _).
  split; [|split; [|split; [|split]]].
  - apply (Hhit "Attack (L) (Sm)(M)" [] "(Sm)" 1 [("(M)", 2); ("(L)", 3); ("(XL)", 4)]).
    + reflexivity.
    + constructor.
    + reflexivity.
  - apply (Hhit " Attack (XL)(L)" [("(Sm)", 1); ("(M)", 2)] "(L)" 3 [("(XL)", 4)]).
    + reflexivity.
    + repeat constructor.
    + reflexivity.
  - apply (Hmiss " Speed "). repeat constructor.
  - apply (Hhit "Attack (L)  " [("(Sm)", 1); ("(M)", 2)] "(L)" 3 [("(XL)", 4)]).
    + reflexivity.
    + repeat constructor.
    + reflexivity.
  - apply (Hhit "(M)(M) Speed up (M) " [("(Sm)", 1)] "(M)" 2 [("(L)", 3); ("(XL)", 4)]).
    + reflexivity.
    + repeat constructor.
    + reflexivity.
Defined.

Example parse_attack_L :
  parse_effect_strength (Some "Attack (L)") = (Some "Attack", 3).
Proof. reflexivity. Qed.

Example replace_all_occurrences :
  PyStr.replace "(M)" EmptyString "a(M)b(M)(M)c" = "abc".
Proof. reflexivity. Qed.

Example strip_both_sides : PyStr.strip "  a b  " = "a b".
Proof. reflexivity. Qed.

(** C3.  On the label of the source's own comment the first scan already
    finds [(XL)], so the [EffectUP] branch is never entered: the effect
    type keeps its quotes and the word [EffectUP]. *)
Theorem parse_eva_label_keeps_keyword :
  parse_effect_strength (Some eva_label) =
    (Some (String PyStr.dquote
             ("Eva Angel Killer" ++ String PyStr.dquote " EffectUP")), 4) /\
  parse_effect_strength (Some eva_label) <> (Some "Eva Angel Killer", 4).
Proof. split; [reflexivity | discriminate]. Qed.

(** C4, as the claim has it, fails: the empty string is not a missing
    cell and is parsed like any other label. *)
Lemma parse_empty_string_not_none :
  parse_effect_strength (Some EmptyString) <> (None, 0).
Proof. discriminate. Qed.

(** C4, amended.  A missing label gives [(None, 0)]; a present label,
    the empty string included, never does, and the empty string gives
    the empty effect type with the default tier 1. *)
Theorem parse_missing_label :
  parse_effect_strength None = (None, 0) /\
  parse_effect_strength (Some EmptyString) = (Some EmptyString, 1) /\
  (forall effect, parse_effect_strength (Some effect) <> (None, 0)).
Proof.
  split; [done|]. split; [done|].
  intros effect H. apply (parse_type_present effect). by rewrite H.
Qed.

End parser.

(** ** Availability *)

Section availability.

Implicit Types (h : gmap string (gset string)) (units : list string).

Lemma find_available_true_iff h required_cat available_cats :
  find_available h required_cat available_cats = true <->
  exists owned, owned ∈ available_cats /\
                (owned = required_cat \/ owned ∈ satisfying h required_cat).
Proof.
  unfold satisfying.
  induction available_cats as [|o rest IH]; simpl.
  - split; [done | intros (? & []%elem_of_nil & _)].
  - destruct (decide (o = required_cat)) as [->|Hne].
    { split; [|done]. intros _. exists required_cat. split; [left | by left]. }
    destruct (h !! required_cat) as [sat|] eqn:Hsat; simpl in *.
    + destruct (decide (o ∈ sat)) as [Hin|Hnin].
      { split; [|done]. intros _. exists o. split; [left | by right]. }
      rewrite IH. split.
      * intros (owned & Hin & Hok). exists owned. split; [by right | done].
      * intros (owned & [->|Hin]%elem_of_cons & Hok).
        -- by destruct Hok.
        -- by exists owned.
    + rewrite IH. split.
      * intros (owned & Hin & Hok). exists owned. split; [by right | done].
      * intros (owned & [->|Hin]%elem_of_cons & Hok).
        -- destruct Hok as [?|[]%elem_of_empty]. done.
        -- by exists owned.
Qed.

(** C8.  [can_satisfy_combo] is true exactly when every required unit
    has an owned unit that equals it or belongs to its satisfying set. *)
Theorem can_satisfy_combo_iff h combo_units available_cats :
  can_satisfy_combo h combo_units available_cats = true <->
  forall required, required ∈ combo_units ->
    exists owned, owned ∈ available_cats /\
                  (owned = required \/ owned ∈ satisfying h required).
Proof.
  induction combo_units as [|r rest IH]; simpl.
  - split; [intros _ ? []%elem_of_nil | done].
  - destruct (find_available h r available_cats) eqn:Hfound.
    + rewrite IH. apply find_available_true_iff in Hfound. split.
      * intros Hrest required [->|Hin]%elem_of_cons; auto.
      * intros Hall required Hin. apply Hall. by right.
    + split; [done|]. intros Hall.
      assert (find_available h r available_cats = true) as Htrue.
      { apply find_available_true_iff, Hall. left. }
      congruence.
Qed.

End availability.

(** ** The hierarchy *)

Section hierarchy.

Implicit Types (h : gmap string (gset string)) (forms : list string)
  (rows : list cats_row) (u a b : string).

Lemma satisfying_add_forms forms h u :
  satisfying (add_forms forms h) u = satisfying h u ∪ tails_of u forms.
Proof.
  revert h. induction forms as [|f later IH]; intros h; simpl.
  { set_solver. }
  rewrite IH. unfold satisfying at 1.
  destruct (decide (f = u)) as [->|Hne].
  - rewrite lookup_insert_eq. simpl.
    assert (default ∅
              (match h !! u with Some _ => h | None => <[u:=∅]> h end !! u)
            = satisfying h u) as ->.
    { unfold satisfying. destruct (h !! u) eqn:Hu; [by rewrite Hu|].
      by rewrite lookup_insert_eq. }
    set_solver.
  - rewrite lookup_insert_ne by done.
    assert (match h !! f with Some _ => h | None => <[f:=∅]> h end !! u = h !! u)
      as ->.
    { destruct (h !! f); [done|]. by rewrite lookup_insert_ne. }
    unfold satisfying. set_solver.
Qed.

Lemma dom_add_forms forms h :
  dom (add_forms forms h) = dom h ∪ list_to_set forms.
Proof.
  revert h. induction forms as [|f later IH]; intros h; simpl.
  { set_solver. }
  rewrite IH, dom_insert_L.
  destruct (h !! f); [|rewrite dom_insert_L]; set_solver.
Qed.

Lemma satisfying_build_hierarchy rows h u :
  satisfying (build_hierarchy rows h) u =
  satisfying h u ∪ ⋃ (map (fun row => tails_of u (row_forms row)) rows).
Proof.
  unfold build_hierarchy. revert h.
  induction rows as [|row rows IH]; intros h; simpl.
  { set_solver. }
  rewrite IH, satisfying_add_forms. set_solver.
Qed.

Lemma dom_build_hierarchy rows h :
  dom (build_hierarchy rows h) =
  dom h ∪ list_to_set (concat (map row_forms rows)).
Proof.
  unfold build_hierarchy. revert h.
  induction rows as [|row rows IH]; intros h; simpl.
  { set_solver. }
  rewrite IH, dom_add_forms, list_to_set_app_L. set_solver.
Qed.

Lemma elem_of_tails_of u b forms :
  b ∈ tails_of u forms <->
  exists pre post, forms = (pre ++ u :: post)%list /\ b ∈ u :: post.
Proof.
  induction forms as [|f later IH]; cbn [tails_of].
  - split; [intros []%elem_of_empty|].
    intros (pre & post & Heq & _). by destruct pre.
  - rewrite elem_of_union, IH. split.
    + intros [Hhere|(pre & post & -> & Hb)].
      * destruct (decide (f = u)) as [->|]; [|by apply elem_of_empty in Hhere].
        exists [], later. split; [done|]. by apply elem_of_list_to_set in Hhere.
      * by exists (f :: pre), post.
    + intros ([|x pre] & post & Heq & Hb); simpl in Heq; injection Heq as -> ->.
      * left. rewrite decide_True by done. by apply elem_of_list_to_set.
      * right. by exists pre, post.
Qed.

Lemma satisfying_built_iff rows u b :
  b ∈ satisfying (build_hierarchy rows ∅) u <->
  exists row pre post,
    row ∈ rows /\ row_forms row = (pre ++ u :: post)%list /\ b ∈ u :: post.
Proof.
  rewrite satisfying_build_hierarchy, elem_of_union, elem_of_union_list.
  unfold satisfying. rewrite lookup_empty. simpl. split.
  - intros [[]%elem_of_empty|(X & HX & Hb)].
    apply list_elem_of_fmap in HX as (row & -> & Hrow).
    apply elem_of_tails_of in Hb as (pre & post & Heq & Hb).
    by exists row, pre, post.
  - intros (row & pre & post & Hrow & Heq & Hb). right.
    exists (tails_of u (row_forms row)). split.
    + by apply (list_elem_of_fmap_2 (fun row => tails_of u (row_forms row))).
    + apply elem_of_tails_of. by exists pre, post.
Qed.

Lemma count_form_app u forms1 forms2 :
  count_form u (forms1 ++ forms2) =
  (count_form u forms1 + count_form u forms2)%nat.
Proof. induction forms1 as [|f l IH]; simpl; [done|]. rewrite IH. lia. Qed.

Lemma count_form_pos u forms : u ∈ forms -> (0 < count_form u forms)%nat.
Proof.
  intros (l1 & l2 & ->)%list_elem_of_split.
  rewrite count_form_app. simpl. rewrite decide_True by done. lia.
Qed.

Lemma count_form_zero u forms : count_form u forms = 0%nat -> u ∉ forms.
Proof. intros H Hin. apply count_form_pos in Hin. lia. Qed.

(** A name that stands in one cell only: every row holding it is the
    same row, and it splits that row's chain in one way only. *)
Lemma single_occurrence rows u row row' pre post pre' post' :
  occurrences u rows = 1%nat ->
  row ∈ rows -> row' ∈ rows ->
  row_forms row = (pre ++ u :: post)%list ->
  row_forms row' = (pre' ++ u :: post')%list ->
  pre = pre' /\ post = post'.
Proof.
  unfold occurrences.
  intros Hone (R1 & R2 & ->)%list_elem_of_split Hrow' Hsplit Hsplit'.
  rewrite map_app, concat_app in Hone. simpl in Hone.
  rewrite !count_form_app, Hsplit, count_form_app in Hone. simpl in Hone.
  rewrite decide_True in Hone by done.
  assert (forall R, row' ∈ R -> (0 < count_form u (concat (map row_forms R)))%nat)
    as Hother.
  { intros R (Ra & Rb & ->)%list_elem_of_split.
    rewrite map_app, concat_app. simpl.
    rewrite !count_form_app, Hsplit', count_form_app. simpl.
    rewrite decide_True by done. lia. }
  apply elem_of_app in Hrow' as [Hin|[->|Hin]%elem_of_cons].
  - apply Hother in Hin. lia.
  - rewrite Hsplit in Hsplit'.
    assert (u ∉ pre) by (apply count_form_zero; lia).
    assert (u ∉ post) by (apply count_form_zero; lia).
    assert (u ∉ pre').
    { apply count_form_zero.
      apply (f_equal (count_form u)) in Hsplit'.
      rewrite !count_form_app in Hsplit'. simpl in Hsplit'.
      rewrite decide_True in Hsplit' by done. lia. }
    destruct (not_elem_of_app_cons_inv_l u u pre post pre' post')
      as (? & _ & ?); done.
  - apply Hother in Hin. lia.
Qed.

Lemma elem_of_table rows u :
  u ∈ concat (map row_forms rows) <->
  exists row, row ∈ rows /\ u ∈ row_forms row.
Proof.
  rewrite list_elem_of_In, in_concat. split.
  - intros (l & (row & <- & Hrow)%in_map_iff & Hu).
    exists row. by rewrite !list_elem_of_In.
  - intros (row & Hrow & Hu). exists (row_forms row).
    rewrite !list_elem_of_In in *. split; [by apply in_map | done].
Qed.

(** C6, as the claim has it, fails: [C] closes the first chain and opens
    the second, so its entry holds [X], which the entry of [B] lacks. *)
Lemma hierarchy_chain_not_monotone :
  let h := cat_hierarchy
             (load_data [chain_row_ABC; chain_row_CX] [] initial_state) in
  row_forms chain_row_ABC = ["A"; "B"; "C"] /\
  ~ (satisfying h "C" ⊆ satisfying h "B").
Proof.
  intros h. split; [reflexivity|]. intros Hsub.
  assert ("X" ∈ satisfying h "C") as HX.
  { apply satisfying_built_iff. exists chain_row_CX, [], ["X"].
    split; [set_solver|]. split; [reflexivity | set_solver]. }
  apply Hsub, satisfying_built_iff in HX as (row & pre & post & Hrow & Heq & HX).
  assert (row_forms row = ["A"; "B"; "C"] \/ row_forms row = ["C"; "X"]) as Hforms.
  { apply elem_of_cons in Hrow as [->|Hrow]; [by left|].
    apply list_elem_of_singleton in Hrow as ->. by right. }
  destruct Hforms as [Hforms|Hforms]; rewrite Hforms in Heq;
    destruct pre as [|? [|? [|? pre]]]; simplify_eq/=;
    try (by destruct pre).
  repeat (apply elem_of_cons in HX as [HX|HX]; [discriminate|]).
  by apply elem_of_nil in HX.
Qed.

(** C6, amended.  Once the table is loaded, every key of the relation is
    in its own satisfying set; the satisfying set of a stage holds that
    stage and every later stage of its chain; and a stage whose name
    stands in no other cell of the table has a satisfying set included
    in that of every earlier stage of its chain. *)
Theorem hierarchy_tails_and_self cats combos :
  let h := cat_hierarchy (load_data cats combos initial_state) in
  (forall u, u ∈ dom h -> u ∈ satisfying h u) /\
  (forall row pre a post,
      row ∈ cats -> row_forms row = (pre ++ a :: post)%list ->
      list_to_set (a :: post) ⊆ satisfying h a) /\
  (forall row pre a mid b post,
      row ∈ cats -> row_forms row = (pre ++ a :: mid ++ b :: post)%list ->
      occurrences b cats = 1%nat ->
      satisfying h b ⊆ satisfying h a).
Proof.
  cbn [load_data cat_hierarchy initial_state]. split; [|split].
  - intros u Hu. rewrite dom_build_hierarchy, dom_empty_L in Hu.
    apply elem_of_union in Hu as [[]%elem_of_empty|Hu].
    apply elem_of_list_to_set, elem_of_table in Hu as (row & Hrow & Hu).
    apply list_elem_of_split in Hu as (pre & post & Heq).
    apply satisfying_built_iff. exists row, pre, post.
    split; [done|]. split; [done | left].
  - intros row pre a post Hrow Heq x Hx%elem_of_list_to_set.
    apply satisfying_built_iff. by exists row, pre, post.
  - intros row pre a mid b post Hrow Heq Hone x Hx.
    apply satisfying_built_iff in Hx as (row' & pre' & post' & Hrow' & Heq' & Hx).
    destruct (single_occurrence cats b row row' (pre ++ a :: mid)%list post pre' post')
      as [_ <-]; try done.
    { by rewrite <-(assoc_L (++)). }
    apply satisfying_built_iff. exists row, pre, (mid ++ b :: post)%list.
    split; [done|]. split; [done|].
    rewrite elem_of_cons, elem_of_app. auto.
Qed.

Lemma hierarchy_tails_and_self_witness :
  let cats := [chain_row_ABC;
               {| cat_First := Some "D"; cat_Evolved := None;
                  cat_True := Some "X"; cat_Ultra := None |}] in
  let h := cat_hierarchy (load_data cats [] initial_state) in
  satisfying h "C" ⊆ satisfying h "B" /\ satisfying h "B" ⊆ satisfying h "A".
Proof.
  intros cats h. split.
  - apply (proj2 (proj2 (hierarchy_tails_and_self cats [])) chain_row_ABC
             ["A"] "B" [] "C" []).
    + left.
    + reflexivity.
    + reflexivity.
  - apply (proj2 (proj2 (hierarchy_tails_and_self cats [])) chain_row_ABC
             [] "A" [] "B" ["C"]).
    + left.
    + reflexivity.
    + reflexivity.
Defined.

End hierarchy.

(** ** Stable insertion sort *)

Section sorting.

Context {A : Type} (le : A -> A -> bool).

Lemma insert_sorted_perm x l : insert_sorted le x l ≡ₚ x :: l.
Proof.
  induction l as [|y l IH]; simpl; [done|].
  destruct (le x y); [done|]. rewrite IH. apply Permutation_swap.
Qed.

Lemma stable_sort_perm l : stable_sort le l ≡ₚ l.
Proof.
  induction l as [|x l IH]; simpl; [done|].
  rewrite insert_sorted_perm. by constructor.
Qed.

Hypothesis le_total : forall x y, le x y = false -> le y x = true.

Lemma insert_sorted_HdRel x y l :
  le y x = true -> HdRel (fun a b => le a b = true) y l ->
  HdRel (fun a b => le a b = true) y (insert_sorted le x l).
Proof.
  intros Hyx Hhd. destruct l as [|z l]; simpl.
  - by constructor.
  - destruct (le x z); constructor; [done|]. by inversion Hhd.
Qed.

Lemma insert_sorted_Sorted x l :
  Sorted (fun a b => le a b = true) l ->
  Sorted (fun a b => le a b = true) (insert_sorted le x l).
Proof.
  induction 1 as [|y l Hsorted IH Hhd]; simpl.
  - by repeat constructor.
  - destruct (le x y) eqn:Hxy.
    + constructor; [by constructor | by constructor].
    + constructor; [done|]. apply insert_sorted_HdRel; [|done].
      by apply le_total.
Qed.

Lemma stable_sort_Sorted l : Sorted (fun a b => le a b = true) (stable_sort le l).
Proof.
  induction l as [|x l IH]; simpl; [constructor|].
  by apply insert_sorted_Sorted.
Qed.

End sorting.

Lemma Sorted_weaken {A} (R R' : A -> A -> Prop) (l : list A) :
  (forall x y, R x y -> R' x y) -> Sorted R l -> Sorted R' l.
Proof.
  intros Himpl. induction 1 as [|x l Hsorted IH Hhd]; constructor; [done|].
  destruct Hhd; constructor; auto.
Qed.

(** ** Combinations *)

Section combinations.

Context {A : Type}.
Implicit Types (l comb : list A).

Lemma elem_of_combinations l k comb :
  comb ∈ combinations l k <-> comb `sublist_of` l /\ length comb = k.
Proof.
  revert k comb. induction l as [|x l IH]; intros [|k] comb; simpl.
  - rewrite list_elem_of_singleton, sublist_nil_r. split; [by intros ->|by intros [-> _]].
  - rewrite elem_of_nil, sublist_nil_r. split; [done|]. by intros [-> ?].
  - rewrite list_elem_of_singleton. split.
    + intros ->. split; [apply sublist_nil_l | done].
    + intros [_ Hlen]. by destruct comb.
  - rewrite elem_of_app, list_elem_of_fmap, sublist_cons_r, IH. split.
    + intros [(c & -> & [Hsub Hlen]%IH)|[Hsub Hlen]].
      * split; [right; by exists c | by rewrite <-Hlen].
      * split; [by left | done].
    + intros [[Hsub|(c & -> & Hsub)] Hlen].
      * by right.
      * left. exists c. split; [done|]. apply IH. split; [done|].
        simpl in Hlen. lia.
Qed.

End combinations.

(** ** The search *)

Section search_facts.

Implicit Types (rows subset : list combo_row) (comb : list matching_combo)
  (r : result) (seen : gset (list string)).

Lemma collect_matching_filter t rows :
  collect_matching t rows =
  matching_record <$> filter (fun combo => effect_type_of combo = Some t) rows.
Proof.
  induction rows as [|combo rows IH]; cbn [collect_matching]; [done|].
  rewrite filter_cons.
  destruct (decide (effect_type_of combo = Some t)) as [Hyes|Hno].
  - rewrite fmap_cons, <-IH. unfold effect_type_of in Hyes.
    unfold matching_record, effect_type_of, tier_of.
    destruct (parse_effect_strength (combo_Effect combo)) as [ty tier].
    simpl in *. by rewrite decide_True.
  - rewrite <-IH. unfold effect_type_of in Hno.
    destruct (parse_effect_strength (combo_Effect combo)) as [ty tier].
    simpl in *. by rewrite decide_False.
Qed.

Lemma sum_strength_records subset :
  sum_strength (matching_record <$> subset) = tier_sum subset.
Proof. induction subset as [|c l IH]; simpl; [done|]. f_equal. exact IH. Qed.

Lemma sum_strength_perm comb comb' :
  comb ≡ₚ comb' -> sum_strength comb = sum_strength comb'.
Proof. induction 1; simpl; lia. Qed.

Lemma union_units_from (acc : gset string) comb :
  foldl (fun all_cats combo => all_cats ∪ list_to_set (mc_units combo)) acc comb
  = acc ∪ ⋃ (map (fun combo => list_to_set (mc_units combo)) comb).
Proof.
  revert acc. induction comb as [|c l IH]; intros acc; simpl.
  - by rewrite (right_id_L ∅ (∪)).
  - by rewrite IH, (assoc_L (∪)).
Qed.

Lemma elem_of_union_units comb x :
  x ∈ union_units comb <-> exists c, c ∈ comb /\ x ∈ mc_units c.
Proof.
  unfold union_units. rewrite union_units_from, (left_id_L ∅ (∪)).
  rewrite elem_of_union_list. split.
  - intros (X & (c & -> & Hc)%list_elem_of_fmap & Hx).
    exists c. split; [done|]. by apply elem_of_list_to_set in Hx.
  - intros (c & Hc & Hx). exists (list_to_set (mc_units c)). split.
    + by apply (list_elem_of_fmap_2 (fun c => list_to_set (mc_units c))).
    + by apply elem_of_list_to_set.
Qed.

Lemma union_units_perm comb comb' :
  comb ≡ₚ comb' -> union_units comb = union_units comb'.
Proof.
  intros Hperm. apply set_eq. intros x. rewrite !elem_of_union_units.
  by setoid_rewrite Hperm.
Qed.

Lemma union_units_records subset :
  union_units (matching_record <$> subset) = unit_union subset.
Proof.
  unfold union_units, unit_union.
  rewrite union_units_from, (left_id_L ∅ (∪)). f_equal.
  induction subset as [|c l IH]; simpl; [done|]. by rewrite <-IH.
Qed.

Lemma sublist_fmap_inv {A B} (f : A -> B) (l : list B) (k : list A) :
  l `sublist_of` f <$> k -> exists k', l = f <$> k' /\ k' `sublist_of` k.
Proof.
  revert l. induction k as [|x k IH]; intros l; simpl.
  - intros ->%sublist_nil_r. by exists [].
  - intros [Hl|(l' & -> & Hl)]%sublist_cons_r.
    + destruct (IH l Hl) as (k' & -> & Hk'). exists k'.
      split; [done | by apply sublist_cons_r; left].
    + destruct (IH l' Hl) as (k' & -> & Hk'). exists (x :: k').
      split; [done | by apply sublist_skip].
Qed.

Lemma sublist_filter_Forall {A} (P : A -> Prop) `{!forall x, Decision (P x)}
    (l k : list A) :
  l `sublist_of` k -> Forall P l -> l `sublist_of` filter P k.
Proof.
  induction 1 as [|x l k Hsub IH|x l k Hsub IH]; intros Hall.
  - done.
  - apply Forall_cons in Hall as [Hx Hl].
    rewrite filter_cons_True by done. apply sublist_skip; auto.
  - rewrite filter_cons. destruct (decide (P x)); auto. apply sublist_cons; auto.
Qed.

Lemma try_combination_Some target_strength max_cats comb r :
  try_combination target_strength max_cats comb = Some r <->
  r = make_result comb /\
  target_strength <= sum_strength comb /\
  Z.of_nat (size (union_units comb)) <= max_cats.
Proof.
  unfold try_combination.
  destruct (Z.leb_spec target_strength (sum_strength comb));
    [destruct (Z.leb_spec (Z.of_nat (size (union_units comb))) max_cats)|];
    split; try (intros [= <-]); try (intros (-> & ? & ?)); try done; lia.
Qed.

Lemma elem_of_enumerate_results target_strength max_cats comb_list r :
  r ∈ enumerate_results target_strength max_cats comb_list <->
  exists comb, comb <> [] /\ comb `sublist_of` comb_list /\
               try_combination target_strength max_cats comb = Some r.
Proof.
  unfold enumerate_results. rewrite list_elem_of_In, in_flat_map. split.
  - intros (k & Hk%list_elem_of_In%elem_of_seq & Hr%list_elem_of_In).
    apply list_elem_of_omap in Hr as (comb & [Hsub Hlen]%elem_of_combinations & Hr).
    exists comb. split; [|done]. intros ->. simpl in Hlen. lia.
  - intros (comb & Hne & Hsub & Hr). exists (length comb). split.
    + apply list_elem_of_In, elem_of_seq.
      pose proof (sublist_length _ _ Hsub). destruct comb; [done|]. simpl in *. lia.
    + apply list_elem_of_In, list_elem_of_omap. exists comb.
      split; [|done]. by apply elem_of_combinations.
Qed.

Lemma unique_from_sublist seen results :
  unique_from seen results `sublist_of` results.
Proof.
  revert seen. induction results as [|r l IH]; intros seen; simpl; [done|].
  destruct (decide (sorted_strings (cats r) ∈ seen)).
  - by apply sublist_cons.
  - by apply sublist_skip.
Qed.

Lemma unique_from_fresh seen results r :
  r ∈ unique_from seen results -> result_key r ∉ seen.
Proof.
  revert seen. induction results as [|r' l IH]; intros seen; simpl.
  - by intros ?%elem_of_nil.
  - destruct (decide (sorted_strings (cats r') ∈ seen)) as [|Hnew]; [by apply IH|].
    intros [->|Hin]%elem_of_cons; [done|].
    apply IH in Hin. set_solver.
Qed.

Lemma unique_from_NoDup seen results :
  NoDup (result_key <$> unique_from seen results).
Proof.
  revert seen. induction results as [|r l IH]; intros seen; simpl.
  - constructor.
  - destruct (decide (sorted_strings (cats r) ∈ seen)) as [|Hnew]; [by apply IH|].
    rewrite fmap_cons. constructor; [|by apply IH].
    intros (r' & Hkey & Hin)%list_elem_of_fmap.
    apply unique_from_fresh in Hin. rewrite <-Hkey in Hin.
    unfold result_key in Hin. set_solver.
Qed.

Lemma unique_from_covers seen results r :
  r ∈ results ->
  result_key r ∈ seen \/ result_key r ∈ result_key <$> unique_from seen results.
Proof.
  revert seen. induction results as [|r' l IH]; intros seen; simpl.
  - by intros ?%elem_of_nil.
  - intros Hin. fold (result_key r').
    destruct (decide (result_key r' ∈ seen)) as [Hseen|Hnew].
    + apply elem_of_cons in Hin as [->|Hin]; [by left | by apply IH].
    + rewrite fmap_cons. apply elem_of_cons in Hin as [->|Hin].
      * right. left.
      * destruct (IH ({[result_key r']} ∪ seen) Hin) as [Hs|Hs].
        -- apply elem_of_union in Hs as [->%elem_of_singleton|Hs].
           ++ right. left.
           ++ by left.
        -- right. by right.
Qed.

Lemma filter_key_once {A B} `{EqDecision B} (f : A -> B) (l : list A) (y : B) :
  NoDup (f <$> l) -> y ∈ f <$> l ->
  length (filter (fun x => f x = y) l) = 1%nat.
Proof.
  induction l as [|x l IH].
  - by intros _ ?%elem_of_nil.
  - rewrite fmap_cons. intros [Hx Hl]%NoDup_cons Hy. rewrite filter_cons.
    destruct (decide (f x = y)) as [<-|Hne]; simpl.
    + f_equal. apply length_zero_iff_nil.
      destruct (filter (fun x0 => f x0 = f x) l) as [|z l'] eqn:Hf; [done|].
      assert (z ∈ filter (fun x0 => f x0 = f x) l) as Hz by (rewrite Hf; left).
      apply list_elem_of_filter in Hz as [Hz Hzl].
      destruct Hx. rewrite <-Hz. by apply list_elem_of_fmap_2.
    + apply elem_of_cons in Hy as [->|Hy]; [done | by apply IH].
Qed.

End search_facts.

Section search_properties.

Implicit Types (rows subset : list combo_row) (comb : list matching_combo)
  (r : result).

Lemma find_combo_combinations_loaded st cats rows t target_strength max_cats :
  find_combo_combinations (load_data cats rows st) t target_strength max_cats
  = Returned (search rows t target_strength max_cats).
Proof. reflexivity. Qed.

Lemma sort_by_strength_perm l : sort_by_strength l ≡ₚ l.
Proof. apply stable_sort_perm. Qed.

(** Every entry of the enumeration comes from a non-empty matching subset
    of the table. *)
Lemma enumerated_sound rows t target_strength max_cats r :
  r ∈ enumerate_results target_strength max_cats
        (sort_by_strength (collect_matching t rows)) ->
  sound_result rows t target_strength max_cats r.
Proof.
  intros (comb & Hne & Hsub & Htry)%elem_of_enumerate_results.
  apply try_combination_Some in Htry as (-> & Hstrength & Hcats).
  pose proof (sort_by_strength_perm (collect_matching t rows)) as Hperm.
  rewrite collect_matching_filter in Hperm, Hsub.
  apply Permutation_map_inv in Hperm as (l3 & Hl3 & Hfilt).
  change (map matching_record l3) with (matching_record <$> l3) in Hl3.
  rewrite Hl3 in Hsub.
  apply sublist_fmap_inv in Hsub as (subset & -> & Hsubset).
  split; [|by split].
  exists subset. split; [by destruct subset|]. split; [split|].
  - trans l3; [by apply sublist_submseteq|]. rewrite <-Hfilt.
    apply sublist_submseteq, sublist_filter.
  - apply Forall_forall. intros combo Hin.
    assert (combo ∈ filter (fun combo => effect_type_of combo = Some t) rows)
      as Hc.
    { rewrite Hfilt. by eapply elem_of_sublist. }
    by apply list_elem_of_filter in Hc as [? _].
  - unfold result_of_subset, make_result. simpl.
    rewrite sum_strength_records, union_units_records.
    split; [|split; [done|split; [|done]]].
    + rewrite <-list_fmap_compose. done.
    + apply list_to_set_elements_L.
Qed.

(** Every non-empty matching subset within the bounds puts a result with
    its key into the enumeration. *)
Lemma enumerated_complete rows t target_strength max_cats subset :
  subset <> [] ->
  matching_subset rows t subset ->
  target_strength <= tier_sum subset ->
  Z.of_nat (size (unit_union subset)) <= max_cats ->
  exists r, r ∈ enumerate_results target_strength max_cats
                  (sort_by_strength (collect_matching t rows)) /\
            result_key r = subset_key subset.
Proof.
  intros Hne [Hsub Hall] Hstrength Hcats.
  apply submseteq_sublist_r in Hsub as (l2 & Hperm & Hl2).
  rewrite Hperm in Hall.
  pose proof (sublist_filter_Forall _ _ _ Hl2 Hall) as Hfilt.
  assert (matching_record <$> subset ⊆+
          sort_by_strength (collect_matching t rows)) as Hrec.
  { rewrite sort_by_strength_perm, collect_matching_filter, Hperm.
    by apply sublist_submseteq, fmap_sublist. }
  apply submseteq_sublist_r in Hrec as (comb & Hcomb & Hsorted).
  exists (make_result comb). split.
  - apply elem_of_enumerate_results. exists comb. split; [|split; [done|]].
    + intros ->. apply Permutation_nil_r in Hcomb. by destruct subset.
    + apply try_combination_Some. split; [done|].
      rewrite <-(sum_strength_perm _ _ Hcomb), <-(union_units_perm _ _ Hcomb).
      by rewrite sum_strength_records, union_units_records.
  - unfold result_key, subset_key, make_result. simpl.
    by rewrite <-(union_units_perm _ _ Hcomb), union_units_records.
Qed.

Lemma search_perm rows t target_strength max_cats :
  search rows t target_strength max_cats ≡ₚ
  unique_from ∅ (enumerate_results target_strength max_cats
                   (sort_by_strength (collect_matching t rows))).
Proof. apply stable_sort_perm. Qed.

(** C2.  Every candidate the search returns stands for a non-empty
    subset of the matching combos, carries that subset's tier sum and the
    size of its unit union, and has total strength at least the target
    and unit count at most the cap. *)
Theorem search_sound rows t target_strength max_cats :
  Forall (sound_result rows t target_strength max_cats)
         (search rows t target_strength max_cats).
Proof.
  apply Forall_forall. intros r Hr. rewrite search_perm in Hr.
  apply (enumerated_sound rows t).
  eapply elem_of_sublist; [exact Hr | apply unique_from_sublist].
Qed.

(** The sorted tuple identifies the unit set. *)
Lemma sorted_elements_inj (X Y : gset string) :
  sorted_strings (elements X) = sorted_strings (elements Y) <-> X = Y.
Proof.
  split; [|by intros ->]. intros Hkey. apply set_eq. intros x.
  rewrite <-!elem_of_elements.
  rewrite <-(stable_sort_perm String.leb (elements X)).
  rewrite <-(stable_sort_perm String.leb (elements Y)).
  unfold sorted_strings in Hkey. by rewrite Hkey.
Qed.

Lemma search_keys_NoDup rows t target_strength max_cats :
  NoDup (result_key <$> search rows t target_strength max_cats).
Proof. rewrite search_perm. apply unique_from_NoDup. Qed.

(** C1, as the claim has it, fails: with target strength 0 the empty
    subset meets every condition, yet the search enumerates non-empty
    combinations only and no candidate has the empty unit set. *)
Lemma empty_subset_not_represented :
  matching_subset example_catalog "Attack" [] /\
  0 <= tier_sum [] /\
  Z.of_nat (size (unit_union [])) <= 5 /\
  representatives (search example_catalog "Attack" 0 5) [] <> 1%nat.
Proof.
  split; [split; [apply submseteq_nil_l | constructor]|].
  split; [done|]. split; [done|]. by vm_compute.
Qed.

(** C1, amended.  No two candidates of the output have the same sorted
    unit tuple, and every non-empty subset of the combos of the target
    effect type whose tier sum reaches the target and whose unit union is
    within the cap has exactly one candidate under its sorted unit
    tuple. *)
Theorem search_complete rows t target_strength max_cats :
  NoDup (result_key <$> search rows t target_strength max_cats) /\
  (forall subset,
      subset <> [] ->
      matching_subset rows t subset ->
      target_strength <= tier_sum subset ->
      Z.of_nat (size (unit_union subset)) <= max_cats ->
      representatives (search rows t target_strength max_cats) subset = 1%nat).
Proof.
  split; [apply search_keys_NoDup|].
  intros subset Hne Hmatch Hstrength Hcats.
  apply filter_key_once; [apply search_keys_NoDup|].
  destruct (enumerated_complete rows t _ _ subset Hne Hmatch Hstrength Hcats)
    as (r & Hr & <-).
  rewrite search_perm.
  destruct (unique_from_covers ∅ _ r Hr) as [[]%elem_of_empty|Hin]. done.
Qed.

Lemma search_complete_witness :
  let subset := [example_combo "B" "Attack (L)" (Some "u2") (Some "u3")] in
  representatives (search example_catalog "Attack" 3 3) subset = 1%nat.
Proof.
  intros subset.
  apply (proj2 (search_complete example_catalog "Attack" 3 3) subset).
  - discriminate.
  - split.
    + apply submseteq_cons, submseteq_skip, submseteq_nil_l.
    + repeat constructor.
  - by vm_compute.
  - by vm_compute.
Defined.

Lemma rank_le_true x y : rank_le x y = true <-> rank_rel x y.
Proof.
  unfold rank_le, rank_rel.
  rewrite orb_true_iff, andb_true_iff, Z.ltb_lt, Z.eqb_eq, Z.leb_le. lia.
Qed.

Lemma rank_le_total x y : rank_le x y = false -> rank_le y x = true.
Proof.
  intros Hxy. apply rank_le_true. apply not_true_iff_false in Hxy.
  rewrite rank_le_true in Hxy. unfold rank_rel in *. lia.
Qed.

#[local] Instance rank_rel_trans : Transitive rank_rel.
Proof. intros x y z. unfold rank_rel. lia. Qed.

(** C5.  In the list the search returns, every candidate has at most
    the unit count of every later one and, when the two counts are equal,
    at least its total strength. *)
Theorem search_ranked rows t target_strength max_cats :
  StronglySorted rank_rel (search rows t target_strength max_cats).
Proof.
  apply Sorted_StronglySorted; [apply _|]. unfold search.
  eapply Sorted_weaken; [|apply stable_sort_Sorted, rank_le_total].
  intros x y. apply rank_le_true.
Qed.

(** The worked example of the specification: target strength 3 and at
    most 3 units over the catalog A, B, C. *)
Example search_worked_example :
  map (fun r => (combos r, total_strength r, result_key r, cat_count r))
      (search example_catalog "Attack" 3 3)
  = [([Some "B"], 3, ["u2"; "u3"], 2);
     ([Some "B"; Some "A"], 5, ["u1"; "u2"; "u3"], 3);
     ([Some "B"; Some "C"], 4, ["u2"; "u3"; "u4"], 3);
     ([Some "A"; Some "C"], 3, ["u1"; "u2"; "u4"], 3)].
Proof. by vm_compute. Qed.

Example search_no_match : search example_catalog "Nonexistent" 1 5 = [].
Proof. by vm_compute. Qed.

Example search_no_units_allowed : search example_catalog "Attack" 0 0 = [].
Proof. by vm_compute. Qed.

End search_properties.

(** ** The query surface *)

Section query_surface.

Implicit Types (rows : list combo_row) (st : state)
  (args : gmap string string).

Lemma truthy_true (s : string) : PyStr.truthy s = true <-> s <> EmptyString.
Proof. by destruct s. Qed.

Lemma elem_of_collect_effect_types (acc : gset string) rows s :
  s ∈ collect_effect_types acc rows <->
  s ∈ acc \/
  (s <> EmptyString /\ exists combo, combo ∈ rows /\ effect_type_of combo = Some s).
Proof.
  revert acc. induction rows as [|combo rows IH]; intros acc; simpl.
  - split; [by left|]. intros [?|(_ & combo & []%elem_of_nil & _)]. done.
  - assert (forall X : gset string,
               s ∈ collect_effect_types X rows ->
               s ∈ X \/ s <> EmptyString /\
                 exists c, c ∈ combo :: rows /\ effect_type_of c = Some s) as Hrest.
    { intros X [?|(? & c & ? & ?)]%IH; [by left|].
      right. split; [done|]. exists c. split; [by right | done]. }
    unfold effect_type_of in *.
    destruct (parse_effect_strength (combo_Effect combo)) as [[ty|] tier] eqn:Hparse.
    + destruct (PyStr.truthy ty) eqn:Hty.
      * split.
        -- intros [[Hin|Hin%elem_of_singleton]%elem_of_union|Hin]%Hrest; auto.
           subst s. right. apply truthy_true in Hty. split; [done|].
           exists combo. split; [left | by rewrite Hparse].
        -- intros [Hin|(Hne & c & [->|Hc]%elem_of_cons & Hs)]; apply IH.
           ++ left. set_solver.
           ++ left. rewrite Hparse in Hs. simpl in Hs. set_solver.
           ++ right. split; [done|]. by exists c.
      * split; [apply Hrest|].
        intros [Hin|(Hne & c & [->|Hc]%elem_of_cons & Hs)]; apply IH.
        -- by left.
        -- rewrite Hparse in Hs. simpl in Hs. injection Hs as ->.
           by destruct s.
        -- right. split; [done|]. by exists c.
    + split; [apply Hrest|].
      intros [Hin|(Hne & c & [->|Hc]%elem_of_cons & Hs)]; apply IH.
      * by left.
      * by rewrite Hparse in Hs.
      * right. split; [done|]. by exists c.
Qed.

Lemma string_leb_total (x y : string) :
  String.leb x y = false -> String.leb y x = true.
Proof. destruct (String.leb_total x y); congruence. Qed.

#[local] Instance string_leb_trans :
  Transitive (fun a b : string => String.leb a b = true).
Proof.
  intros x y z Hxy Hyz. apply Is_true_true.
  apply Is_true_true in Hxy, Hyz.
  exact (transitivity (R:=String.le) Hxy Hyz).
Qed.

Lemma sorted_strings_sorted (l : list string) :
  StronglySorted (fun a b => String.leb a b = true) (sorted_strings l).
Proof.
  apply Sorted_StronglySorted; [apply _|].
  apply stable_sort_Sorted, string_leb_total.
Qed.

(** C10.  On a loaded catalog the listing is returned with status 200;
    it holds exactly the non-empty effect types that some combo parses
    to, each once, in ascending order: a type that is the empty string
    and the missing type of an absent label are left out. *)
Theorem effect_types_listing cats rows st :
  exists listing,
    get_effect_types (load_data cats rows st)
    = Returned {| status := 200; payload := EffectTypesBody listing |} /\
    (forall s, s ∈ listing <->
               s <> EmptyString /\
               exists combo, combo ∈ rows /\ effect_type_of combo = Some s) /\
    NoDup listing /\
    StronglySorted (fun a b => String.leb a b = true) listing /\
    EmptyString ∉ listing.
Proof.
  exists (sorted_strings (elements (collect_effect_types ∅ rows))).
  split; [reflexivity|].
  assert (forall s, s ∈ sorted_strings (elements (collect_effect_types ∅ rows)) <->
                    s <> EmptyString /\
                    exists combo, combo ∈ rows /\ effect_type_of combo = Some s)
    as Hmem.
  { intros s. unfold sorted_strings. rewrite stable_sort_perm, elem_of_elements.
    rewrite elem_of_collect_effect_types. split; [|by right].
    by intros [[]%elem_of_empty|?]. }
  split; [exact Hmem|]. split; [|split].
  - unfold sorted_strings. rewrite stable_sort_perm. apply NoDup_elements.
  - apply sorted_strings_sorted.
  - intros [Hne _]%Hmem. done.
Qed.

Example effect_types_skip_empty :
  get_effect_types
    (load_data [] (example_combo "D" "(Sm)" (Some "u5") None
                   :: {| combo_Name := Some "E"; combo_Effect := None;
                         combo_Unit1 := Some "u6"; combo_Unit2 := None;
                         combo_Unit3 := None; combo_Unit4 := None;
                         combo_Unit5 := None |}
                   :: example_combo "F" "Speed (M)" (Some "u7") None
                   :: example_catalog) initial_state)
  = Returned {| status := 200; payload := EffectTypesBody ["Attack"; "Speed"] |}.
Proof. by vm_compute. Qed.

(** [int] on the edges of what it accepts: the separators of
    [str.isspace] below 32 are no white space for it, the no-break space
    is, and 4300 digits are the most it reads. *)
Example int_refuses_separator :
  PyInt.int (String (ascii_of_nat 28) "5")
  = Raised (ValueError "invalid literal for int() with base 10: '\x1c5'").
Proof. by vm_compute. Qed.

Example int_accepts_no_break_space :
  PyInt.int (String (ascii_of_nat 160) "-1_0 ") = Returned (-10).
Proof. by vm_compute. Qed.

Example int_digit_limit :
  (exists n, PyInt.int (string_of_list_ascii (repeat "1"%char 4300)) = Returned n) /\
  PyInt.int (string_of_list_ascii (repeat "1"%char 4301) ++ "x")
  = Raised (ValueError "Exceeds the limit (4300 digits) for integer string conversion: value has 4301 digits; use sys.set_int_max_str_digits() to increase the limit").
Proof. split; [eexists|]; by vm_compute. Qed.

(** C9, as the claim has it, fails: both integers are converted before
    the effect type is looked at, so a request without an effect type
    and with a malformed [strength] ends in the conversion's
    [ValueError], not in the 400 answer. *)
Lemma missing_effect_type_bad_strength :
  let st := load_data [] example_catalog initial_state in
  let args : gmap string string := {[ "strength" := "abc" ]} in
  args !! "effect_type" = None /\
  find_combinations st args
  = Raised (ValueError "invalid literal for int() with base 10: 'abc'") /\
  find_combinations st args
  <> Returned {| status := 400; payload := ErrorBody "Effect type is required" |}.
Proof. split; [by vm_compute|]. split; [by vm_compute | discriminate]. Qed.

(** C9, amended.  When [strength] and [max_cats] are absent or valid
    integer literals: a missing or empty effect type is answered with
    status 400, whatever the state, the search not being run; and when
    the search raises an exception the answer is status 500 carrying
    the exception's message, the view returning normally. *)
Theorem find_combinations_errors st args strength max_cats :
  int_arg args "strength" 1 = Returned strength ->
  int_arg args "max_cats" 5 = Returned max_cats ->
  ((args !! "effect_type" = None \/ args !! "effect_type" = Some EmptyString) ->
   find_combinations st args
   = Returned {| status := 400; payload := ErrorBody "Effect type is required" |})
  /\
  (forall t e,
      args !! "effect_type" = Some t -> t <> EmptyString ->
      find_combo_combinations st t strength max_cats = Raised e ->
      find_combinations st args
      = Returned {| status := 500; payload := ErrorBody (exn_str e) |}).
Proof.
  intros Hs Hm. unfold find_combinations. rewrite Hs, Hm. simpl. split.
  - by intros [-> | ->].
  - intros t e -> Hne Hraise. destruct t as [|c t]; [done|].
    by rewrite Hraise.
Qed.

Lemma find_combinations_errors_witness :
  find_combinations initial_state {[ "max_cats" := " 3 " ]}
  = Returned {| status := 400; payload := ErrorBody "Effect type is required" |}
  /\
  find_combinations initial_state {[ "effect_type" := "Attack" ]}
  = Returned {| status := 500;
                payload := ErrorBody "'NoneType' object has no attribute 'iterrows'" |}.
Proof.
  split.
  - apply (find_combinations_errors initial_state {[ "max_cats" := " 3 " ]} 1 3).
    + by vm_compute.
    + by vm_compute.
    + left. by vm_compute.
  - apply (find_combinations_errors initial_state
             {[ "effect_type" := "Attack" ]} 1 5)
      with (t := "Attack")
           (e := AttributeError "'NoneType' object has no attribute 'iterrows'").
    + by vm_compute.
    + by vm_compute.
    + by vm_compute.
    + discriminate.
    + reflexivity.
Defined.

End query_surface.


(** * Further properties of the code *)

(** ** The parser *)

Section parser_more.

Implicit Types (effect : string).

Lemma lstrip_shape (s : string) :
  PyStr.lstrip s = EmptyString \/
  exists c r, PyStr.lstrip s = String c r /\ PyStr.is_space c = false.
Proof.
  induction s as [|c s IH]; simpl; [by left|].
  destruct (PyStr.is_space c) eqn:Hc; [done|]. right. by exists c, s.
Qed.

Lemma rstrip_idem (s : string) : PyStr.rstrip (PyStr.rstrip s) = PyStr.rstrip s.
Proof.
  induction s as [|c s IH]; simpl; [done|].
  destruct (PyStr.rstrip s) as [|d r] eqn:Hr.
  - destruct (PyStr.is_space c) eqn:Hc; simpl; [done|]. by rewrite Hc.
  - cbn [PyStr.rstrip]. cbn [PyStr.rstrip] in IH. by rewrite IH.
Qed.

Lemma rstrip_keeps_head c (s : string) :
  PyStr.is_space c = false ->
  exists r, PyStr.rstrip (String c s) = String c r.
Proof.
  intros Hc. simpl. destruct (PyStr.rstrip s) as [|d r]; rewrite ?Hc; eauto.
Qed.

Lemma strip_idem (s : string) : PyStr.strip (PyStr.strip s) = PyStr.strip s.
Proof.
  unfold PyStr.strip.
  destruct (lstrip_shape s) as [->|(c & r & -> & Hc)]; [done|].
  destruct (rstrip_keeps_head c r Hc) as (r' & Hr'). rewrite Hr'.
  cbn [PyStr.lstrip]. rewrite Hc, <-Hr'. apply rstrip_idem.
Qed.

Lemma scan_markers_hit on_hit effect (items : list (string * Z)) ty tier :
  scan_markers on_hit effect items = Some (ty, tier) ->
  exists m, (m, tier) ∈ items /\ PyStr.contains m effect = true /\ ty = on_hit m.
Proof.
  induction items as [|[m t] items IH]; simpl; [done|].
  destruct (PyStr.contains m effect) eqn:Hm.
  - intros [= <- <-]. exists m. split; [left | done].
  - intros (m' & Hin & Hm' & Hty)%IH. exists m'. split; [by right | done].
Qed.

(** X1.  The tier is always between 0 and 4; it is 0 exactly for a
    missing label, which is also the only case with no effect type. *)
Theorem parse_tier_range (label : option string) :
  0 <= (parse_effect_strength label).2 <= 4 /\
  ((parse_effect_strength label).2 = 0 <-> label = None) /\
  ((parse_effect_strength label).1 = None <-> label = None).
Proof.
  destruct label as [effect|]; [|by simpl].
  rewrite parse_present. unfold strength_map. cbn [scan_markers].
  repeat (destruct (PyStr.contains _ effect)); simpl;
    (split; [lia|]); split; split; (discriminate || lia || done).
Qed.

(** X2.  When several markers occur in a label the one of the lowest tier
    decides: the tier returned is that of a marker that occurs, and no
    marker that occurs has a smaller one. *)
Theorem parse_lowest_marker_wins effect m t :
  (m, t) ∈ strength_map ->
  PyStr.contains m effect = true ->
  exists m' t',
    (m', t') ∈ strength_map /\ PyStr.contains m' effect = true /\ t' <= t /\
    parse_effect_strength (Some effect)
    = (Some (PyStr.strip (PyStr.replace m' EmptyString effect)), t').
Proof.
  intros Hin Hm. rewrite parse_present. unfold strength_map in *.
  cbn [scan_markers].
  destruct (PyStr.contains "(Sm)" effect) eqn:H1.
  { exists "(Sm)", 1. split; [set_solver|]. split; [done|]. split; [|done].
    repeat (apply elem_of_cons in Hin as [[= -> ->]|Hin]; [lia|]).
    by apply elem_of_nil in Hin. }
  apply elem_of_cons in Hin as [[= -> _]|Hin]; [congruence|].
  destruct (PyStr.contains "(M)" effect) eqn:H2.
  { exists "(M)", 2. split; [set_solver|]. split; [done|]. split; [|done].
    repeat (apply elem_of_cons in Hin as [[= -> ->]|Hin]; [lia|]).
    by apply elem_of_nil in Hin. }
  apply elem_of_cons in Hin as [[= -> _]|Hin]; [congruence|].
  destruct (PyStr.contains "(L)" effect) eqn:H3.
  { exists "(L)", 3. split; [set_solver|]. split; [done|]. split; [|done].
    repeat (apply elem_of_cons in Hin as [[= -> ->]|Hin]; [lia|]).
    by apply elem_of_nil in Hin. }
  apply elem_of_cons in Hin as [[= -> _]|Hin]; [congruence|].
  apply elem_of_cons in Hin as [[= -> ->]|Hin]; [|by apply elem_of_nil in Hin].
  exists "(XL)", 4. rewrite Hm. split; [set_solver|]. split; [done|].
  split; [lia | done].
Qed.

Lemma parse_lowest_marker_wins_witness :
  exists m' t',
    (m', t') ∈ strength_map /\
    PyStr.contains m' "Attack (XL) (M)" = true /\ t' <= 4 /\
    parse_effect_strength (Some "Attack (XL) (M)")
    = (Some (PyStr.strip (PyStr.replace m' EmptyString "Attack (XL) (M)")), t').
Proof.
  apply (parse_lowest_marker_wins "Attack (XL) (M)" "(XL)" 4).
  - unfold strength_map. do 3 right. left.
  - reflexivity.
Defined.

(** X3.  When a marker occurs in the label, the effect type returned has
    no white space at either end: neither its first nor its last character
    is white space, so stripping it again changes nothing. *)
Theorem parse_hit_is_trimmed effect m t :
  (m, t) ∈ strength_map ->
  PyStr.contains m effect = true ->
  exists effect_type,
    (parse_effect_strength (Some effect)).1 = Some effect_type /\
    no_space_at_ends effect_type /\
    PyStr.strip effect_type = effect_type.
Proof.
  intros Hin Hm. rewrite parse_present.
  destruct (scan_markers _ effect strength_map) as [[ty tier]|] eqn:Hscan.
  - exists ty. split; [done|].
    apply scan_markers_hit in Hscan as (m' & _ & _ & ->).
    split; [apply strip_trimmed_from | apply strip_idem].
  - apply scan_markers_none in Hscan.
    rewrite Forall_forall in Hscan. apply Hscan in Hin.
    unfold misses in Hin. simpl in Hin. congruence.
Qed.

Lemma parse_hit_is_trimmed_witness :
  exists effect_type,
    (parse_effect_strength (Some "  Attack  (L)  ")).1 = Some effect_type /\
    no_space_at_ends effect_type /\
    PyStr.strip effect_type = effect_type /\
    effect_type = "Attack".
Proof.
  destruct (parse_hit_is_trimmed "  Attack  (L)  " "(L)" 3)
    as (effect_type & Hty & Hends & Hfix).
  - unfold strength_map. do 2 right. left.
  - reflexivity.
  - exists effect_type. split; [done|]. split; [done|]. split; [done|].
    vm_compute in Hty. by injection Hty.
Defined.

(** X4.  The [EffectUP] block is dead code: deleting it changes the
    result for no label. *)
Theorem parse_special_block_is_dead (label : option string) :
  parse_effect_strength label = parse_without_special label.
Proof.
  destruct label as [effect|]; [|done].
  rewrite parse_present. done.
Qed.

End parser_more.

(** ** The hierarchy *)

Section hierarchy_more.

Implicit Types (h : gmap string (gset string)) (rows cats : list cats_row)
  (u a b : string).

(** A relation is determined by its keys and its satisfying sets. *)
Lemma hierarchy_eq h1 h2 :
  dom h1 = dom h2 -> (forall u, satisfying h1 u = satisfying h2 u) -> h1 = h2.
Proof.
  intros Hdom Hsat. apply map_eq. intros u.
  specialize (Hsat u). unfold satisfying in Hsat.
  destruct (h1 !! u) as [S1|] eqn:H1, (h2 !! u) as [S2|] eqn:H2; simpl in *.
  - by rewrite Hsat.
  - apply elem_of_dom_2 in H1. apply not_elem_of_dom in H2. by rewrite Hdom in H1.
  - apply elem_of_dom_2 in H2. apply not_elem_of_dom in H1. by rewrite Hdom in H1.
  - done.
Qed.

Lemma elem_of_all_tails rows u b :
  b ∈ ⋃ (map (fun row => tails_of u (row_forms row)) rows) <->
  exists row, row ∈ rows /\ b ∈ tails_of u (row_forms row).
Proof.
  rewrite elem_of_union_list. split.
  - intros (X & (row & -> & Hrow)%list_elem_of_fmap & Hb). by exists row.
  - intros (row & Hrow & Hb). exists (tails_of u (row_forms row)).
    split; [|done].
    by apply (list_elem_of_fmap_2 (fun row => tails_of u (row_forms row))).
Qed.

(** X5.  After loading from the initial state the keys of the relation are
    the names that stand in the table, and [b] is in the satisfying set of
    [u] exactly when some row has [u] at one position of its chain and [b]
    at that position or a later one. *)
Theorem hierarchy_exact cats combos :
  let h := cat_hierarchy (load_data cats combos initial_state) in
  dom h = list_to_set (concat (map row_forms cats)) /\
  (forall u b,
      b ∈ satisfying h u <->
      exists row pre post,
        row ∈ cats /\ row_forms row = (pre ++ u :: post)%list /\ b ∈ u :: post).
Proof.
  cbn [load_data cat_hierarchy initial_state]. split.
  - rewrite dom_build_hierarchy, dom_empty_L. by rewrite (left_id_L ∅ (∪)).
  - intros u b. apply satisfying_built_iff.
Qed.

(** X6.  Loading into a state that already holds a relation only adds:
    every key stays a key, and each satisfying set becomes the old set
    together with the tails the new rows contribute. *)
Theorem load_data_accumulates st cats combos u :
  let h := cat_hierarchy st in
  let h' := cat_hierarchy (load_data cats combos st) in
  dom h ⊆ dom h' /\
  satisfying h u ⊆ satisfying h' u /\
  (forall b, b ∈ satisfying h' u <->
             b ∈ satisfying h u \/
             exists row pre post,
               row ∈ cats /\ row_forms row = (pre ++ u :: post)%list /\
               b ∈ u :: post).
Proof.
  cbn [load_data cat_hierarchy]. split; [|split].
  - rewrite dom_build_hierarchy. apply union_subseteq_l.
  - rewrite satisfying_build_hierarchy. apply union_subseteq_l.
  - intros b. rewrite satisfying_build_hierarchy, elem_of_union, elem_of_all_tails.
    split; (intros [?|Hnew]; [by left | right]).
    + destruct Hnew as (row & Hrow & (pre & post & ? & ?)%elem_of_tails_of).
      by exists row, pre, post.
    + destruct Hnew as (row & pre & post & Hrow & ? & ?).
      exists row. split; [done|]. apply elem_of_tails_of. by exists pre, post.
Qed.

(** X7.  Loading the same unit table a second time leaves the relation as
    it was after the first load. *)
Theorem load_data_twice st cats combos combos' :
  cat_hierarchy (load_data cats combos' (load_data cats combos st))
  = cat_hierarchy (load_data cats combos st).
Proof.
  cbn [load_data cat_hierarchy]. apply hierarchy_eq.
  - rewrite !dom_build_hierarchy.
    by rewrite <-(assoc_L (∪)), (idemp_L (∪)).
  - intros u. rewrite !satisfying_build_hierarchy.
    by rewrite <-(assoc_L (∪)), (idemp_L (∪)).
Qed.

(** X8.  The order of the rows of the unit table does not matter. *)
Theorem load_data_row_order st cats cats' combos :
  cats ≡ₚ cats' ->
  cat_hierarchy (load_data cats combos st)
  = cat_hierarchy (load_data cats' combos st).
Proof.
  intros Hperm. cbn [load_data cat_hierarchy]. apply hierarchy_eq.
  - rewrite !dom_build_hierarchy. f_equal. apply set_eq. intros u.
    rewrite !elem_of_list_to_set, !elem_of_table. by setoid_rewrite Hperm.
  - intros u. rewrite !satisfying_build_hierarchy. f_equal.
    apply set_eq. intros b. rewrite !elem_of_all_tails. by setoid_rewrite Hperm.
Qed.

Lemma load_data_row_order_witness :
  cat_hierarchy (load_data [chain_row_ABC; chain_row_CX] [] initial_state)
  = cat_hierarchy (load_data [chain_row_CX; chain_row_ABC] [] initial_state).
Proof.
  apply (load_data_row_order initial_state [chain_row_ABC; chain_row_CX]
           [chain_row_CX; chain_row_ABC] []).
  apply Permutation_swap.
Defined.

End hierarchy_more.

(** ** Availability *)

Section availability_more.

Implicit Types (h : gmap string (gset string)) (units owned : list string).

Lemma can_satisfy_combo_Forall h units owned :
  can_satisfy_combo h units owned = true <->
  Forall (fun required => find_available h required owned = true) units.
Proof.
  induction units as [|r units IH]; simpl.
  - split; [constructor | done].
  - rewrite Forall_cons.
    destruct (find_available h r owned); [rewrite IH; tauto|].
    split; [done | by intros [? _]].
Qed.

(** X9.  Owning more never hurts and requiring less never hurts: a combo
    that is satisfied stays satisfied when units are added to the owned
    ones or removed from the required ones. *)
Theorem can_satisfy_combo_mono h units units' owned owned' :
  units' ⊆ units -> owned ⊆ owned' ->
  can_satisfy_combo h units owned = true ->
  can_satisfy_combo h units' owned' = true.
Proof.
  intros Hunits Howned. rewrite !can_satisfy_combo_Forall, !Forall_forall.
  intros Hall r Hr. apply find_available_true_iff.
  destruct (proj1 (find_available_true_iff h r owned) (Hall r (Hunits r Hr)))
    as (o & Ho & Hok).
  exists o. split; [by apply Howned | done].
Qed.

Lemma can_satisfy_combo_mono_witness :
  can_satisfy_combo ∅ ["u1"] ["u3"; "u2"; "u1"] = true.
Proof.
  apply (can_satisfy_combo_mono ∅ ["u1"; "u2"] ["u1"] ["u1"; "u2"]
           ["u3"; "u2"; "u1"]).
  - set_solver.
  - set_solver.
  - reflexivity.
Defined.

(** X10.  Whatever the relation holds, owning the required units
    themselves satisfies a combo, and with nothing owned only the combo
    without units is satisfied. *)
Theorem can_satisfy_combo_own_units h units :
  can_satisfy_combo h units units = true /\
  (can_satisfy_combo h units [] = true <-> units = []).
Proof.
  split.
  - apply can_satisfy_combo_Forall, Forall_forall. intros r Hr.
    apply find_available_true_iff. exists r. split; [done | by left].
  - destruct units as [|r units]; simpl; [done|]. split; discriminate.
Qed.

(** X11.  After loading from the initial state, a single owned unit [b]
    satisfies a single required unit [a] exactly when [b] is [a] or some
    row of the table has [a] in its chain and [b] at the same or a later
    stage: an evolved form stands for the earlier ones, never the other way
    round unless a row says so. *)
Theorem evolved_form_satisfies cats combos a b :
  let h := cat_hierarchy (load_data cats combos initial_state) in
  can_satisfy_combo h [a] [b] = true <->
  b = a \/
  exists row pre post,
    row ∈ cats /\ row_forms row = (pre ++ a :: post)%list /\ b ∈ a :: post.
Proof.
  cbn [load_data cat_hierarchy initial_state].
  rewrite can_satisfy_combo_Forall, Forall_singleton, find_available_true_iff.
  rewrite <-satisfying_built_iff. split.
  - intros (o & ->%list_elem_of_singleton & Hok). done.
  - intros Hok. exists b. split; [apply list_elem_of_singleton|]; done.
Qed.

End availability_more.

(** ** The search *)

Section search_more.

Implicit Types (rows subset : list combo_row) (comb : list matching_combo)
  (r : result).

Lemma elem_of_search rows t target_strength max_cats r :
  r ∈ search rows t target_strength max_cats <->
  r ∈ unique_from ∅ (candidates rows t target_strength max_cats).
Proof. unfold candidates. by rewrite search_perm. Qed.

Lemma search_subseteq_candidates rows t target_strength max_cats r :
  r ∈ search rows t target_strength max_cats ->
  r ∈ candidates rows t target_strength max_cats.
Proof.
  intros Hr%elem_of_search.
  eapply elem_of_sublist; [exact Hr | apply unique_from_sublist].
Qed.

(** The combinations that are enumerated are the records of selections of
    matching rows. *)
Lemma sorted_matching_records rows t comb :
  comb `sublist_of` sort_by_strength (collect_matching t rows) ->
  exists subset, comb = matching_record <$> subset /\ matching_subset rows t subset.
Proof.
  intros Hsub.
  pose proof (sort_by_strength_perm (collect_matching t rows)) as Hperm.
  rewrite collect_matching_filter in Hperm, Hsub.
  apply Permutation_map_inv in Hperm as (l3 & Hl3 & Hfilt).
  change (map matching_record l3) with (matching_record <$> l3) in Hl3.
  rewrite Hl3 in Hsub.
  apply sublist_fmap_inv in Hsub as (subset & -> & Hsubset).
  exists subset. split; [done|]. split.
  - trans l3; [by apply sublist_submseteq|]. rewrite <-Hfilt.
    apply sublist_submseteq, sublist_filter.
  - apply Forall_forall. intros combo Hin.
    assert (combo ∈ filter (fun combo => effect_type_of combo = Some t) rows) as Hc.
    { rewrite Hfilt. by eapply elem_of_sublist. }
    by apply list_elem_of_filter in Hc as [? _].
Qed.

Lemma elem_of_candidates rows t target_strength max_cats r :
  r ∈ candidates rows t target_strength max_cats ->
  exists subset,
    subset <> [] /\ matching_subset rows t subset /\
    r = make_result (matching_record <$> subset) /\
    target_strength <= tier_sum subset /\
    Z.of_nat (size (unit_union subset)) <= max_cats.
Proof.
  intros (comb & Hne & Hsub & Htry)%elem_of_enumerate_results.
  apply try_combination_Some in Htry as (-> & Hstrength & Hcats).
  apply sorted_matching_records in Hsub as (subset & -> & Hmatch).
  exists subset. rewrite sum_strength_records, union_units_records in *.
  split; [by destruct subset | done].
Qed.

Lemma filter_twice {A} (P : A -> Prop) `{!forall x, Decision (P x)} (l : list A) :
  filter P (filter P l) = filter P l.
Proof.
  induction l as [|x l IH]; [done|]. rewrite filter_cons.
  destruct (decide (P x)); [|done]. by rewrite filter_cons_True, IH.
Qed.

(** X12.  Rows of another effect type have no influence: the result is
    the same when they are taken out of the table first. *)
Theorem search_ignores_other_types rows t target_strength max_cats :
  search rows t target_strength max_cats
  = search (filter (fun combo => effect_type_of combo = Some t) rows)
           t target_strength max_cats.
Proof.
  unfold search. by rewrite !collect_matching_filter, filter_twice.
Qed.

(** X13.  When no row has the target effect type the result is empty,
    whatever the bounds. *)
Theorem search_no_matching_row rows t target_strength max_cats :
  Forall (fun combo => effect_type_of combo <> Some t) rows ->
  search rows t target_strength max_cats = [].
Proof.
  intros Hnone. unfold search. rewrite collect_matching_filter.
  assert (filter (fun combo => effect_type_of combo = Some t) rows = []) as ->.
  { induction Hnone as [|c l Hc _ IH]; [done|].
    rewrite filter_cons, decide_False by done. exact IH. }
  reflexivity.
Qed.

Lemma search_no_matching_row_witness :
  search example_catalog "Speed" 1 5 = [].
Proof.
  apply (search_no_matching_row example_catalog "Speed" 1 5).
  repeat constructor; discriminate.
Defined.

Lemma get_combo_units_length (combo : combo_row) :
  (length (get_combo_units combo) <= 5)%nat.
Proof.
  unfold get_combo_units. simpl.
  destruct (combo_Unit1 combo), (combo_Unit2 combo), (combo_Unit3 combo),
    (combo_Unit4 combo), (combo_Unit5 combo); simpl; lia.
Qed.

Lemma size_list_to_set_le (l : list string) :
  (size (list_to_set l : gset string) <= length l)%nat.
Proof.
  induction l as [|x l IH].
  - by rewrite list_to_set_nil, size_empty.
  - rewrite list_to_set_cons, size_union_alt, size_singleton. cbn [length].
    assert (list_to_set l ∖ {[x]} ⊆ (list_to_set l : gset string)) as Hsub
      by set_solver.
    apply subseteq_size in Hsub. lia.
Qed.

Lemma unit_union_cons (combo : combo_row) subset :
  unit_union (combo :: subset)
  = list_to_set (get_combo_units combo) ∪ unit_union subset.
Proof. reflexivity. Qed.

Lemma size_unit_union_le subset :
  (size (unit_union subset) <= 5 * length subset)%nat.
Proof.
  induction subset as [|c l IH].
  - change (unit_union []) with (∅ : gset string). by rewrite size_empty.
  - rewrite unit_union_cons, size_union_alt. cbn [length].
    pose proof (size_list_to_set_le (get_combo_units c)).
    pose proof (get_combo_units_length c).
    assert (unit_union l ∖ list_to_set (get_combo_units c) ⊆ unit_union l) as Hsub
      by set_solver.
    apply subseteq_size in Hsub. lia.
Qed.

(** X14.  With a negative cap on the units nothing is returned; with the
    cap 0 nothing is returned as soon as every row of the target type
    names at least one unit. *)
Theorem search_without_unit_budget rows t target_strength max_cats :
  (max_cats < 0 -> search rows t target_strength max_cats = []) /\
  (max_cats = 0 ->
   Forall (fun combo => effect_type_of combo = Some t ->
                        get_combo_units combo <> []) rows ->
   search rows t target_strength max_cats = []).
Proof.
  split.
  - intros Hneg. destruct (search rows t target_strength max_cats) as [|r l] eqn:Hs;
      [done|].
    assert (r ∈ search rows t target_strength max_cats) as Hr by (rewrite Hs; left).
    apply search_subseteq_candidates, elem_of_candidates in Hr
      as (subset & _ & _ & _ & _ & Hcap). lia.
  - intros -> Hunits.
    destruct (search rows t target_strength 0) as [|r l] eqn:Hs; [done|].
    assert (r ∈ search rows t target_strength 0) as Hr by (rewrite Hs; left).
    apply search_subseteq_candidates, elem_of_candidates in Hr
      as (subset & Hne & [Hsub Hall] & _ & _ & Hcap).
    destruct subset as [|c subset]; [done|].
    apply Forall_cons in Hall as [Hc _].
    assert (c ∈ rows) as Hin.
    { eapply elem_of_submseteq; [|exact Hsub]. left. }
    rewrite Forall_forall in Hunits. specialize (Hunits c Hin Hc).
    destruct (get_combo_units c) as [|u us] eqn:Hu; [done|].
    assert (size (unit_union (c :: subset)) = 0%nat) as Hzero by lia.
    apply size_empty_iff in Hzero.
    assert (u ∈ unit_union (c :: subset)) as Hmem.
    { rewrite unit_union_cons, Hu. set_solver. }
    rewrite Hzero in Hmem. by apply elem_of_empty in Hmem.
Qed.

Lemma search_without_unit_budget_witness :
  search example_catalog "Attack" 0 (-1) = [] /\
  search example_catalog "Attack" 0 0 = [].
Proof.
  split.
  - apply (proj1 (search_without_unit_budget example_catalog "Attack" 0 (-1))).
    lia.
  - apply (proj2 (search_without_unit_budget example_catalog "Attack" 0 0)).
    + reflexivity.
    + repeat constructor; discriminate.
Defined.

Lemma tier_of_matching (combo : combo_row) t :
  effect_type_of combo = Some t -> 1 <= tier_of combo <= 4.
Proof.
  unfold effect_type_of, tier_of.
  destruct (combo_Effect combo) as [effect|]; [|discriminate].
  intros _. rewrite parse_present. unfold strength_map. cbn [scan_markers].
  repeat (destruct (PyStr.contains _ effect)); simpl; lia.
Qed.

Lemma tier_sum_bounds subset t :
  Forall (fun combo => effect_type_of combo = Some t) subset ->
  Z.of_nat (length subset) <= tier_sum subset <= 4 * Z.of_nat (length subset).
Proof.
  induction 1 as [|c l Hc _ IH]; [simpl; lia|].
  apply tier_of_matching in Hc. unfold tier_sum in *.
  cbn [length foldr]. rewrite Nat2Z.inj_succ. lia.
Qed.

(** X15.  In every candidate returned the unit list has no duplicate,
    [cat_count] is its length, there is at least one combo, and the unit
    count is at most five times the number of combos. *)
Theorem search_result_units rows t target_strength max_cats :
  Forall (fun r => NoDup (cats r) /\
                   cat_count r = Z.of_nat (length (cats r)) /\
                   (1 <= length (combos r))%nat /\
                   cat_count r <= 5 * Z.of_nat (length (combos r)))
         (search rows t target_strength max_cats).
Proof.
  apply Forall_forall. intros r Hr.
  apply search_subseteq_candidates, elem_of_candidates in Hr
    as (subset & Hne & _ & -> & _ & _).
  unfold make_result. cbn [cats cat_count combos].
  rewrite union_units_records, ?length_map, ?length_fmap.
  split; [apply NoDup_elements|]. split; [done|]. split.
  - destruct subset; [done | simpl; lia].
  - pose proof (size_unit_union_le subset). lia.
Qed.

(** X16.  The total strength of every candidate returned lies between
    the number of its combos and four times that number; in particular it
    is at least 1. *)
Theorem search_result_strength rows t target_strength max_cats :
  Forall (fun r => Z.of_nat (length (combos r)) <= total_strength r
                   <= 4 * Z.of_nat (length (combos r)) /\
                   1 <= total_strength r)
         (search rows t target_strength max_cats).
Proof.
  apply Forall_forall. intros r Hr.
  apply search_subseteq_candidates, elem_of_candidates in Hr
    as (subset & Hne & [_ Hall] & -> & _ & _).
  unfold make_result. cbn [total_strength combos].
  rewrite sum_strength_records, ?length_map, ?length_fmap.
  pose proof (tier_sum_bounds subset t Hall).
  split; [done|]. destruct subset; [done | simpl in *; lia].
Qed.

(** The result that survives under a key is the first one enumerated
    with it. *)
Lemma unique_from_first (seen : gset (list string)) (results : list result) r :
  r ∈ unique_from seen results ->
  exists l1 l2, results = (l1 ++ r :: l2)%list /\
                Forall (fun r' => result_key r' <> result_key r) l1.
Proof.
  revert seen. induction results as [|r0 l IH]; intros seen; simpl.
  - by intros ?%elem_of_nil.
  - fold (result_key r0).
    destruct (decide (result_key r0 ∈ seen)) as [Hseen|Hnew].
    + intros Hr. pose proof (unique_from_fresh _ _ _ Hr) as Hfresh.
      destruct (IH _ Hr) as (l1 & l2 & -> & Hl1).
      exists (r0 :: l1), l2. split; [done|]. constructor; [|done].
      intros Heq. by rewrite Heq in Hseen.
    + intros [->|Hr]%elem_of_cons.
      * exists [], l. split; [done | constructor].
      * pose proof (unique_from_fresh _ _ _ Hr) as Hfresh.
        destruct (IH _ Hr) as (l1 & l2 & -> & Hl1).
        exists (r0 :: l1), l2. split; [done|]. constructor; [|done].
        intros Heq. apply Hfresh. rewrite <-Heq. set_solver.
Qed.

Lemma flat_map_seq_sorted {A} (f : nat -> list A) (m : A -> nat) (a n : nat) :
  (forall k x, x ∈ f k -> m x = k) ->
  StronglySorted (fun x y => (m x <= m y)%nat) (flat_map f (seq a n)) /\
  Forall (fun x => (a <= m x)%nat) (flat_map f (seq a n)).
Proof.
  intros Hm. revert a. induction n as [|n IH]; intros a; simpl.
  - split; constructor.
  - destruct (IH (S a)) as [Hsorted Hge]. split.
    + apply StronglySorted_app_2; [| |done].
      * intros x y Hx Hy. rewrite Forall_forall in Hge.
        apply Hm in Hx. apply Hge in Hy. lia.
      * assert (Forall (fun x => m x = a) (f a)) as Hall.
        { apply Forall_forall. intros x. apply Hm. }
        induction Hall as [|x l Hx Hl IHl]; constructor; [done|].
        eapply Forall_impl; [exact Hl|]. simpl. intros y Hy. lia.
    + apply Forall_app. split.
      * apply Forall_forall. intros x Hx%Hm. lia.
      * eapply Forall_impl; [exact Hge|]. simpl. intros; lia.
Qed.

Lemma candidates_by_size rows t target_strength max_cats :
  StronglySorted (fun x y => (length (combos x) <= length (combos y))%nat)
                 (candidates rows t target_strength max_cats).
Proof.
  apply flat_map_seq_sorted. intros k r Hr.
  apply list_elem_of_omap in Hr as (comb & [_ Hlen]%elem_of_combinations & Htry).
  apply try_combination_Some in Htry as (-> & _ & _).
  unfold make_result. cbn [combos]. by rewrite length_map.
Qed.

Lemma candidates_complete rows t target_strength max_cats subset :
  subset <> [] ->
  matching_subset rows t subset ->
  target_strength <= tier_sum subset ->
  Z.of_nat (size (unit_union subset)) <= max_cats ->
  exists r, r ∈ candidates rows t target_strength max_cats /\
            result_key r = subset_key subset /\
            length (combos r) = length subset.
Proof.
  intros Hne [Hsub Hall] Hstrength Hcats.
  apply submseteq_sublist_r in Hsub as (l2 & Hperm & Hl2).
  rewrite Hperm in Hall.
  pose proof (sublist_filter_Forall _ _ _ Hl2 Hall) as Hfilt.
  assert (matching_record <$> subset ⊆+
          sort_by_strength (collect_matching t rows)) as Hrec.
  { rewrite sort_by_strength_perm, collect_matching_filter, Hperm.
    by apply sublist_submseteq, fmap_sublist. }
  apply submseteq_sublist_r in Hrec as (comb & Hcomb & Hsorted).
  exists (make_result comb). split; [|split].
  - apply elem_of_enumerate_results. exists comb. split; [|split; [done|]].
    + intros ->. apply Permutation_nil_r in Hcomb. by destruct subset.
    + apply try_combination_Some. split; [done|].
      rewrite <-(sum_strength_perm _ _ Hcomb), <-(union_units_perm _ _ Hcomb).
      by rewrite sum_strength_records, union_units_records.
  - unfold result_key, subset_key, make_result. simpl.
    by rewrite <-(union_units_perm _ _ Hcomb), union_units_records.
  - unfold make_result. cbn [combos].
    by rewrite length_map, <-(Permutation_length Hcomb), length_fmap.
Qed.

(** X17.  Among the qualifying subsets with one unit set, the candidate
    that is returned uses the fewest combos: smaller combinations are
    enumerated first and the first result under a key is the one kept. *)
Theorem representative_has_fewest_combos rows t target_strength max_cats r subset :
  r ∈ search rows t target_strength max_cats ->
  subset <> [] ->
  matching_subset rows t subset ->
  target_strength <= tier_sum subset ->
  Z.of_nat (size (unit_union subset)) <= max_cats ->
  subset_key subset = result_key r ->
  (length (combos r) <= length subset)%nat.
Proof.
  intros Hr%elem_of_search Hne Hmatch Hstrength Hcats Hkey.
  apply unique_from_first in Hr as (l1 & l2 & Hsplit & Hl1).
  destruct (candidates_complete rows t _ _ subset Hne Hmatch Hstrength Hcats)
    as (r' & Hr' & Hkey' & <-).
  pose proof (candidates_by_size rows t target_strength max_cats) as Hsorted.
  rewrite Hsplit in Hr', Hsorted.
  apply elem_of_app in Hr' as [Hin|[->|Hin]%elem_of_cons].
  - rewrite Forall_forall in Hl1. destruct (Hl1 r' Hin). congruence.
  - done.
  - apply StronglySorted_app in Hsorted as (_ & _ & Hsorted).
    apply StronglySorted_cons in Hsorted as [Hsorted _].
    rewrite Forall_forall in Hsorted. by apply Hsorted.
Qed.

Lemma representative_has_fewest_combos_witness :
  let r := make_result
             [matching_record (example_combo "B" "Attack (L)" (Some "u2") (Some "u3"))] in
  (length (combos r) <= 1)%nat.
Proof.
  intros r.
  apply (representative_has_fewest_combos example_catalog "Attack" 3 3 r
           [example_combo "B" "Attack (L)" (Some "u2") (Some "u3")]).
  - apply list_elem_of_lookup. exists 0%nat. by vm_compute.
  - discriminate.
  - split.
    + apply submseteq_cons, submseteq_skip, submseteq_nil_l.
    + repeat constructor.
  - by vm_compute.
  - by vm_compute.
  - by vm_compute.
Defined.

(** X18.  A stricter query offers no new unit set: with a higher target
    strength or a lower cap, every candidate's sorted unit tuple is among
    those of the looser query. *)
Theorem search_stricter_query rows t target_strength target_strength'
    max_cats max_cats' :
  target_strength <= target_strength' ->
  max_cats' <= max_cats ->
  Forall (fun r' => result_key r' ∈
                    result_key <$> search rows t target_strength max_cats)
         (search rows t target_strength' max_cats').
Proof.
  intros Hs Hm. apply Forall_forall. intros r' Hr'.
  apply search_subseteq_candidates, elem_of_enumerate_results in Hr'
    as (comb & Hne & Hsub & Htry).
  apply try_combination_Some in Htry as (-> & Hstrength & Hcats).
  assert (make_result comb ∈ candidates rows t target_strength max_cats) as Hin.
  { apply elem_of_enumerate_results. exists comb. split; [done|]. split; [done|].
    apply try_combination_Some. split; [done | lia]. }
  rewrite search_perm.
  by destruct (unique_from_covers ∅ _ _ Hin) as [[]%elem_of_empty|?].
Qed.

Lemma search_stricter_query_witness :
  Forall (fun r' => result_key r' ∈ result_key <$> search example_catalog "Attack" 1 5)
         (search example_catalog "Attack" 3 3).
Proof.
  apply (search_stricter_query example_catalog "Attack" 1 3 5 3); lia.
Defined.

End search_more.

(** ** Size of the result and order among ties *)

Section search_size.

Implicit Types (rows : list combo_row) (r : result).

(** The number of [k]-combinations, summed over a list of sizes. *)
Lemma sum_lengths_add {A} (f g : nat -> list A) (ks : list nat) :
  length (flat_map (fun k => (f k ++ g k)%list) ks)
  = (length (flat_map f ks) + length (flat_map g ks))%nat.
Proof.
  induction ks as [|k ks IH]; simpl; [done|].
  rewrite !length_app, IH. lia.
Qed.

Lemma flat_map_seq_shift {A} (f : nat -> list A) (a n : nat) :
  flat_map f (seq (S a) n) = flat_map (fun k => f (S k)) (seq a n).
Proof.
  revert a. induction n as [|n IH]; intros a; simpl; [done|]. by rewrite IH.
Qed.

Lemma combinations_too_long {A} (l : list A) (k : nat) :
  (length l < k)%nat -> combinations l k = [].
Proof.
  intros Hlen. destruct (combinations l k) as [|comb rest] eqn:Hc; [done|].
  assert (comb ∈ combinations l k) as Hin by (rewrite Hc; left).
  apply elem_of_combinations in Hin as [Hsub%sublist_length Hk]. lia.
Qed.

Lemma combinations_zero {A} (l : list A) : combinations l 0 = [[]].
Proof. by destruct l. Qed.

Lemma all_combinations_step {A} (x : A) (l : list A) (n : nat) :
  length (flat_map (combinations (x :: l)) (seq 0 (S n)))
  = (length (flat_map (combinations l) (seq 0 n))
     + length (flat_map (combinations l) (seq 0 (S n))))%nat.
Proof.
  cbn [seq flat_map]. rewrite !flat_map_seq_shift. cbn [combinations].
  rewrite !length_app. cbn [length].
  rewrite (sum_lengths_add (fun k => map (cons x) (combinations l k))
             (fun k => combinations l (S k))).
  assert (length (flat_map (fun k => map (cons x) (combinations l k)) (seq 0 n))
          = length (flat_map (combinations l) (seq 0 n))) as ->.
  { generalize (seq 0 n). intros ks. induction ks as [|k ks IH]; simpl; [done|].
    by rewrite !length_app, length_map, IH. }
  rewrite combinations_zero. simpl. lia.
Qed.

Lemma all_combinations_count {A} (l : list A) :
  length (flat_map (combinations l) (seq 0 (S (length l)))) = (2 ^ length l)%nat.
Proof.
  induction l as [|x l IH]; [done|].
  cbn [length]. rewrite all_combinations_step, IH.
  rewrite seq_S, flat_map_app, length_app, IH. cbn [flat_map].
  rewrite combinations_too_long by (simpl; lia).
  rewrite Nat.pow_succ_r'. simpl. lia.
Qed.

Lemma length_omap_le {A B} (f : A -> option B) (l : list A) :
  (length (omap f l) <= length l)%nat.
Proof. induction l as [|x l IH]; csimpl; [done|]. destruct (f x); csimpl; lia. Qed.

Lemma enumerate_results_count target_strength max_cats (l : list matching_combo) :
  (S (length (enumerate_results target_strength max_cats l)) <= 2 ^ length l)%nat.
Proof.
  rewrite <-all_combinations_count. cbn [seq flat_map combinations length].
  rewrite length_app, combinations_zero. cbn [length Nat.add]. apply le_n_S.
  unfold enumerate_results. generalize (seq 1 (length l)). intros ks.
  induction ks as [|k ks IH]; simpl; [done|].
  rewrite !length_app. pose proof (length_omap_le
    (try_combination target_strength max_cats) (combinations l k)). lia.
Qed.

(** X19.  With [n] rows of the target effect type in the table, the
    search returns at most [2^n - 1] candidates. *)
Theorem search_result_count rows t target_strength max_cats :
  (S (length (search rows t target_strength max_cats))
   <= 2 ^ length (filter (fun combo => effect_type_of combo = Some t) rows))%nat.
Proof.
  rewrite (Permutation_length (search_perm rows t target_strength max_cats)).
  pose proof (sublist_length _ _
    (unique_from_sublist ∅ (candidates rows t target_strength max_cats))) as Hle.
  pose proof (enumerate_results_count target_strength max_cats
    (sort_by_strength (collect_matching t rows))) as Hcount.
  rewrite (Permutation_length (sort_by_strength_perm _)) in Hcount.
  unfold candidates in Hle.
  rewrite collect_matching_filter in Hcount, Hle |- *.
  rewrite length_fmap in Hcount. lia.
Qed.

(** Insertion keeps the order inside a class of elements that the
    comparison does not tell apart. *)
Lemma insert_sorted_filter {A} (le : A -> A -> bool) (P : A -> Prop)
    `{!forall x, Decision (P x)} (x : A) (l : list A) :
  (forall y z, P y -> P z -> le y z = true) ->
  filter P (insert_sorted le x l) = filter P (x :: l).
Proof.
  intros Htie. induction l as [|y l IH]; simpl; [done|].
  destruct (le x y) eqn:Hxy; [done|].
  rewrite (filter_cons _ y), IH, !(filter_cons _ x), (filter_cons _ y).
  destruct (decide (P x)) as [Hx|Hx], (decide (P y)) as [Hy|Hy]; try done.
  rewrite Htie in Hxy by done. discriminate.
Qed.

Lemma stable_sort_filter {A} (le : A -> A -> bool) (P : A -> Prop)
    `{!forall x, Decision (P x)} (l : list A) :
  (forall y z, P y -> P z -> le y z = true) ->
  filter P (stable_sort le l) = filter P l.
Proof.
  intros Htie. induction l as [|x l IH]; simpl; [done|].
  rewrite insert_sorted_filter by done. by rewrite !filter_cons, IH.
Qed.

(** X20.  The final sort is stable: the candidates that have the same
    unit count and the same total strength stand in the output in the
    order in which the duplicate removal left them, that is in the order
    of enumeration. *)
Theorem search_ties_keep_order rows t target_strength max_cats (count strength : Z) :
  filter (fun r => cat_count r = count /\ total_strength r = strength)
         (search rows t target_strength max_cats)
  = filter (fun r => cat_count r = count /\ total_strength r = strength)
           (unique_from ∅ (candidates rows t target_strength max_cats)).
Proof.
  unfold search, candidates. apply stable_sort_filter.
  intros y z [Hy1 Hy2] [Hz1 Hz2]. apply rank_le_true. unfold rank_rel. lia.
Qed.

End search_size.

(** ** The views *)

Section views_more.

Implicit Types (rows : list combo_row) (st : state) (args : gmap string string).

(** X21.  Every effect type that the listing offers can be asked for
    with the default bounds (strength 1, at most 5 units): the search then
    returns at least one candidate. *)
Theorem listed_type_has_combination cats rows st listing t :
  get_effect_types (load_data cats rows st)
  = Returned {| status := 200; payload := EffectTypesBody listing |} ->
  t ∈ listing ->
  exists r results,
    find_combo_combinations (load_data cats rows st) t 1 5
    = Returned (r :: results).
Proof.
  intros [= <-] Ht. unfold sorted_strings in Ht.
  rewrite stable_sort_perm, elem_of_elements in Ht.
  apply elem_of_collect_effect_types in Ht
    as [[]%elem_of_empty|(_ & combo & Hin & Hty)].
  rewrite find_combo_combinations_loaded.
  destruct (candidates_complete rows t 1 5 [combo]) as (r & Hr & _).
  - discriminate.
  - split; [by apply singleton_submseteq_l | by repeat constructor].
  - pose proof (tier_of_matching combo t Hty). simpl. lia.
  - pose proof (size_unit_union_le [combo]). simpl in *. lia.
  - destruct (unique_from_covers ∅ _ _ Hr) as [[]%elem_of_empty|Hkey].
    unfold candidates in Hkey. rewrite <-search_perm in Hkey.
    destruct (search rows t 1 5) as [|r0 results]; [by apply elem_of_nil in Hkey|].
    by exists r0, results.
Qed.

Lemma listed_type_has_combination_witness :
  exists r results,
    find_combo_combinations (load_data [] example_catalog initial_state) "Attack" 1 5
    = Returned (r :: results).
Proof.
  apply (listed_type_has_combination [] example_catalog initial_state ["Attack"]).
  - by vm_compute.
  - left.
Defined.


End views_more.

(** ** What the ranking and the bounds mean for a caller *)

Section search_use.

Implicit Types (rows subset : list combo_row) (r : result).

Lemma search_head_first rows t target_strength max_cats r rest :
  search rows t target_strength max_cats = r :: rest ->
  Forall (rank_rel r) rest.
Proof.
  intros Hs.
  assert (StronglySorted rank_rel (r :: rest)) as Hsorted.
  { rewrite <-Hs. apply @Sorted_StronglySorted; [exact rank_rel_trans|].
    unfold search.
    eapply Sorted_weaken; [|apply stable_sort_Sorted, rank_le_total].
    intros x y. apply rank_le_true. }
  by apply StronglySorted_cons in Hsorted as [? _].
Qed.

(** A qualifying subset has a candidate in the output whose unit count is
    the size of the subset's unit union. *)
Lemma qualifying_subset_candidate rows t target_strength max_cats subset :
  subset <> [] ->
  matching_subset rows t subset ->
  target_strength <= tier_sum subset ->
  Z.of_nat (size (unit_union subset)) <= max_cats ->
  exists r, r ∈ search rows t target_strength max_cats /\
            cat_count r = Z.of_nat (size (unit_union subset)).
Proof.
  intros Hne Hmatch Hstrength Hcats.
  destruct (candidates_complete rows t _ _ subset Hne Hmatch Hstrength Hcats)
    as (r0 & Hr0 & Hkey0 & _).
  destruct (unique_from_covers ∅ _ _ Hr0) as [[]%elem_of_empty|Hkey].
  unfold candidates in Hkey. rewrite <-search_perm in Hkey.
  apply list_elem_of_fmap in Hkey as (r & Hkey & Hr).
  exists r. split; [done|].
  pose proof Hr as Hr'.
  apply search_subseteq_candidates, elem_of_candidates in Hr'
    as (subset' & _ & _ & -> & _ & _).
  rewrite Hkey0 in Hkey. unfold result_key, subset_key, make_result in Hkey.
  cbn [cats] in Hkey. rewrite union_units_records in Hkey.
  apply sorted_elements_inj in Hkey.
  unfold make_result. cbn [cat_count]. by rewrite union_units_records, Hkey.
Qed.

(** X23.  The first candidate of the output needs the fewest units: no
    non-empty subset of the target type that reaches the target within the
    cap has a smaller unit union. *)
Theorem best_candidate_first rows t target_strength max_cats r rest subset :
  search rows t target_strength max_cats = r :: rest ->
  subset <> [] ->
  matching_subset rows t subset ->
  target_strength <= tier_sum subset ->
  Z.of_nat (size (unit_union subset)) <= max_cats ->
  cat_count r <= Z.of_nat (size (unit_union subset)).
Proof.
  intros Hs Hne Hmatch Hstrength Hcats.
  destruct (qualifying_subset_candidate rows t _ _ subset Hne Hmatch Hstrength Hcats)
    as (r' & Hr' & <-).
  rewrite Hs in Hr'. apply elem_of_cons in Hr' as [->|Hin]; [done|].
  pose proof (search_head_first _ _ _ _ _ _ Hs) as Hfirst.
  rewrite Forall_forall in Hfirst. by destruct (Hfirst r' Hin).
Qed.

Lemma best_candidate_first_witness :
  exists r rest,
    search example_catalog "Attack" 3 3 = r :: rest /\
    cat_count r <= 3.
Proof.
  destruct (search example_catalog "Attack" 3 3) as [|r rest] eqn:Hs.
  { by vm_compute in Hs. }
  exists r, rest. split; [done|].
  apply (best_candidate_first example_catalog "Attack" 3 3 r rest
           [example_combo "A" "Attack (M)" (Some "u1") (Some "u2");
            example_combo "C" "Attack (Sm)" (Some "u4") None] Hs).
  - discriminate.
  - split.
    + apply submseteq_skip, submseteq_cons, submseteq_skip, submseteq_nil_l.
    + repeat constructor.
  - by vm_compute.
  - by vm_compute.
Defined.

(** X24.  The result is empty exactly when no non-empty subset of the
    rows of the target type reaches the target strength within the cap. *)
Theorem search_empty_iff rows t target_strength max_cats :
  search rows t target_strength max_cats = [] <->
  (forall subset,
      subset <> [] -> matching_subset rows t subset ->
      target_strength <= tier_sum subset ->
      max_cats < Z.of_nat (size (unit_union subset))).
Proof.
  split.
  - intros Hs subset Hne Hmatch Hstrength.
    destruct (Z.lt_ge_cases max_cats (Z.of_nat (size (unit_union subset))))
      as [?|Hcats]; [done|].
    destruct (qualifying_subset_candidate rows t _ _ subset Hne Hmatch Hstrength Hcats)
      as (r & Hr & _).
    rewrite Hs in Hr. by apply elem_of_nil in Hr.
  - intros Hnone.
    destruct (search rows t target_strength max_cats) as [|r rest] eqn:Hs; [done|].
    assert (r ∈ search rows t target_strength max_cats) as Hr by (rewrite Hs; left).
    apply search_subseteq_candidates, elem_of_candidates in Hr
      as (subset & Hne & Hmatch & _ & Hstrength & Hcats).
    specialize (Hnone subset Hne Hmatch Hstrength). lia.
Qed.

(** X25.  A target above four times the number of rows of the target
    type cannot be reached: the result is empty. *)
Theorem search_unreachable_target rows t target_strength max_cats :
  4 * Z.of_nat (length (filter (fun combo => effect_type_of combo = Some t) rows))
  < target_strength ->
  search rows t target_strength max_cats = [].
Proof.
  intros Hhigh.
  destruct (search rows t target_strength max_cats) as [|r rest] eqn:Hs; [done|].
  assert (r ∈ search rows t target_strength max_cats) as Hr by (rewrite Hs; left).
  apply search_subseteq_candidates, elem_of_candidates in Hr
    as (subset & _ & [Hsub Hall] & _ & Hstrength & _).
  pose proof (tier_sum_bounds subset t Hall) as Hbound.
  apply submseteq_sublist_r in Hsub as (l2 & Hperm & Hl2).
  rewrite Hperm in Hall.
  pose proof (sublist_length _ _ (sublist_filter_Forall _ _ _ Hl2 Hall)) as Hlen.
  rewrite <-(Permutation_length Hperm) in Hlen. lia.
Qed.

Lemma search_unreachable_target_witness :
  search example_catalog "Attack" 13 5 = [].
Proof.
  apply (search_unreachable_target example_catalog "Attack" 13 5).
  by vm_compute.
Defined.

End search_use.
